(** * destroyable-server: connection registry and [destroy()] orchestration

    A shallow embedding of [makeDestroyable] (src/index.ts) and of its
    historical single-handle-per-key variant.

    - Sockets are JS objects: a [Handle] is an object identity.  The
      properties the code reads ([closed], [destroyed], [_parent]) live
      in the environment, outside the code's control.
    - [connectionDict] is a JS object used as a map whose keys are
      enumerated by [for ... in]: an association list in insertion order
      (keys have the form [address:port], never an array index, so
      insertion order is the enumeration order; they never name an
      inherited property of [Object.prototype] either, so only own
      properties are modelled).
    - Event handlers run to completion on one thread; the events
      themselves (connections, socket 'close', the server-close
      callback, the check phase that runs [setImmediate] callbacks) are
      chosen by the environment. *)

From Stdlib Require Import List String Ascii Bool Arith ZArith NArith Lia.
From Stdlib Require Import DecimalString DecimalPos DecimalN Permutation.
Import ListNotations.
Open Scope string_scope.
Open Scope list_scope.

(** ** Sockets *)

(** Object identities are numbered. *)
Abbreviation Handle := nat.

(** The two status properties read by [destroy()].  [closed] is
    [undefined] (falsy) before Node 18: that is [false] here. *)
Record SockFlags : Type := mkFlags { closed : bool; destroyed : bool }.

Definition Flags := Handle -> SockFlags.

(** ** The registry: [connectionDict] *)

Definition dict (V : Type) := list (string * V).

(** [obj[key]] *)
Fixpoint dict_get {V : Type} (key : string) (d : dict V) : option V :=
  match d with
  | [] => None
  | (k, v) :: d' => if String.eqb k key then Some v else dict_get key d'
  end.

(** [obj[key] = v]: an existing property keeps its place, a new one
    goes last. *)
Fixpoint dict_set {V : Type} (key : string) (v : V) (d : dict V) : dict V :=
  match d with
  | [] => [(key, v)]
  | (k, v0) :: d' =>
      if String.eqb k key then (k, v) :: d' else (k, v0) :: dict_set key v d'
  end.

(** [delete obj[key]] *)
Fixpoint dict_delete {V : Type} (key : string) (d : dict V) : dict V :=
  match d with
  | [] => []
  | (k, v) :: d' =>
      if String.eqb k key then dict_delete key d' else (k, v) :: dict_delete key d'
  end.

(** [connectionDict] of src/index.ts: each key holds an array. *)
Definition Dict := dict (list Handle).

(** [conns.indexOf(conn)]: index of the first identical element, or -1. *)
Fixpoint indexOf (conn : Handle) (conns : list Handle) : Z :=
  match conns with
  | [] => (-1)%Z
  | c :: rest =>
      if Nat.eqb c conn then 0%Z
      else let i := indexOf conn rest in
           if (i =? -1)%Z then (-1)%Z else (i + 1)%Z
  end.

(** [conns.splice(index, 1)] for [index >= 0]: the array without the
    element at [index]. *)
Fixpoint splice1 (index : nat) (conns : list Handle) : list Handle :=
  match conns with
  | [] => []
  | c :: rest =>
      match index with
      | O => rest
      | S i => c :: splice1 i rest
      end
  end.

(** [conns.push(conn)] *)
Definition push (conns : list Handle) (conn : Handle) : list Handle :=
  conns ++ [conn].

Definition addConnection (key : string) (conn : Handle) (d : Dict) : Dict :=
  match dict_get key d with
  | Some conns => dict_set key (push conns conn) d
  | None => dict_set key [conn] d
  end.

Definition removeConnection (key : string) (conn : Handle) (d : Dict) : Dict :=
  match dict_get key d with
  | None => d
  | Some conns =>
      let index := indexOf conn conns in
      if Nat.eqb (List.length conns) 1 && (index =? 0)%Z then
        dict_delete key d
      else if negb (index =? -1)%Z then
        dict_set key (splice1 (Z.to_nat index) conns) d
      else d
  end.

(** Every handle held by the registry, in enumeration order. *)
Definition tracked (d : Dict) : list Handle := List.concat (map snd d).

(** The array under [key], empty when the key is absent. *)
Definition conns_of (key : string) (d : Dict) : list Handle :=
  match dict_get key d with Some conns => conns | None => [] end.

(** [a] occurs in [l] with a [b] somewhere after it. *)
Fixpoint before (a b : Handle) (l : list Handle) : Prop :=
  match l with
  | [] => False
  | x :: l' => (x = a /\ In b l') \/ before a b l'
  end.

(** Registry operations as data, to speak about sequences of them. *)
Inductive RegOp : Type :=
| Register (key : string) (conn : Handle)
| Unregister (key : string) (conn : Handle).

Definition apply_op (d : Dict) (op : RegOp) : Dict :=
  match op with
  | Register k c => addConnection k c d
  | Unregister k c => removeConnection k c d
  end.

Definition apply_ops (ops : list RegOp) (d : Dict) : Dict :=
  fold_left apply_op ops d.

Definition registered (ops : list RegOp) : list Handle :=
  flat_map (fun op => match op with Register _ c => [c] | Unregister _ _ => [] end) ops.

(** The registry invariant of the data model: keys are distinct
    properties, no key holds an empty array, and no handle is held
    twice (neither under two keys nor twice under one). *)
Definition no_empty (d : Dict) : Prop :=
  forall k conns, In (k, conns) d -> conns <> [].

Definition registry_inv (d : Dict) : Prop :=
  NoDup (map fst d) /\ no_empty d /\ NoDup (tracked d).

(** ** Connection tracking: the 'connection' and 'close' handlers *)

(** [conn.remoteAddress + ':' + conn.remotePort]; either property may be
    [undefined]. *)
Definition show_address (a : option string) : string :=
  match a with Some s => s | None => "undefined" end.

Definition show_port (p : option N) : string :=
  match p with Some n => NilZero.string_of_uint (N.to_uint n) | None => "undefined" end.

Definition registryKey (remoteAddress : option string) (remotePort : option N) : string :=
  show_address remoteAddress ++ ":" ++ show_port remotePort.

(** Errors reported by [server.close]'s callback; a falsy [err] is
    [None] below. *)
Definition Err := string.

(** What the environment can make happen.  [EvAccept false] is the
    server's 'connection' event and [EvAccept true] its
    'secureConnection' event (the two handlers are the same code); the
    event carries the address and port the socket shows at that time. *)
Inductive Event : Type :=
| EvAccept (secure : bool) (conn : Handle)
           (remoteAddress : option string) (remotePort : option N)
| EvSockClose (conn : Handle)
| EvServerClosed (err : option Err)
| EvImmediate.

(** The state [makeDestroyable] closes over: the registry, and the
    'close' listeners its handlers have attached, each remembering the
    [key] and [conn] of its closure, in attachment order. *)
Record Tracker : Type := mkTracker {
  connectionDict : Dict;
  closeListeners : list (Handle * string)
}.

Definition makeDestroyable : Tracker :=
  {| connectionDict := []; closeListeners := [] |}.

Definition onConnection (conn : Handle) (a : option string) (p : option N)
  (t : Tracker) : Tracker :=
  let key := registryKey a p in
  {| connectionDict := addConnection key conn (connectionDict t);
     closeListeners := closeListeners t ++ [(conn, key)] |}.

(** [conn] emits 'close': each listener attached to it runs
    [removeConnection(key, conn)]. *)
Definition fireClose (conn : Handle) (listeners : list (Handle * string))
  (d : Dict) : Dict :=
  fold_left
    (fun d l => if Nat.eqb (fst l) conn then removeConnection (snd l) (fst l) d else d)
    listeners d.

Definition onClose (conn : Handle) (t : Tracker) : Tracker :=
  {| connectionDict := fireClose conn (closeListeners t) (connectionDict t);
     closeListeners := closeListeners t |}.

Definition track (t : Tracker) (ev : Event) : Tracker :=
  match ev with
  | EvAccept _ conn a p => onConnection conn a p t
  | EvSockClose conn => onClose conn t
  | EvServerClosed _ | EvImmediate => t
  end.

Definition track_all (evs : list Event) (t : Tracker) : Tracker :=
  fold_left track evs t.

(** How many 'close' listeners of [conn] would call
    [removeConnection(key, conn)]. *)
Definition listening (conn : Handle) (key : string)
  (listeners : list (Handle * string)) : nat :=
  List.length
    (filter (fun l => Nat.eqb (fst l) conn && String.eqb (snd l) key) listeners).

(** What the handlers maintain: a well-formed registry in which every
    held handle still has the listener that will remove it. *)
Definition tracker_inv (t : Tracker) : Prop :=
  NoDup (map fst (connectionDict t)) /\
  no_empty (connectionDict t) /\
  forall k c,
    count_occ Nat.eq_dec (conns_of k (connectionDict t)) c
    <= listening c k (closeListeners t).

(** Every accepted connection is closed later on. *)
Fixpoint all_closed_later (evs : list Event) : Prop :=
  match evs with
  | [] => True
  | EvAccept _ conn _ _ :: rest => In (EvSockClose conn) rest /\ all_closed_later rest
  | _ :: rest => all_closed_later rest
  end.

Definition accepted_keys (evs : list Event) : list string :=
  flat_map (fun ev => match ev with
                      | EvAccept _ _ a p => [registryKey a p]
                      | _ => []
                      end) evs.

(** ** The promise returned by [destroy()] *)

Inductive Outcome : Type :=
| Pending
| Fulfilled
| Rejected (err : Err).

(** Where the chain [Promise.all(closePromises).then(...)] stands: still
    waiting, its callback has run and queued the [setImmediate], or the
    immediate has run. *)
Inductive Phase : Type :=
| AwaitingClose
| ImmediateQueued
| ImmediateRan.

(** [waits] are the handles of the [closePromises] still pending: each
    has [resolve] attached as a 'close' listener. *)
Record Run : Type := mkRun {
  waits : list Handle;
  phase : Phase;
  outcome : Outcome
}.

(** A promise settles once: later [resolve]/[reject] calls do nothing. *)
Definition resolve (r : Run) : Run :=
  match outcome r with
  | Pending => {| waits := waits r; phase := phase r; outcome := Fulfilled |}
  | _ => r
  end.

Definition reject (err : Err) (r : Run) : Run :=
  match outcome r with
  | Pending => {| waits := waits r; phase := phase r; outcome := Rejected err |}
  | _ => r
  end.

(** Microtasks run before the next event: once every close promise is
    resolved, the [then] callback calls [setImmediate]. *)
Definition microtasks (r : Run) : Run :=
  match phase r, waits r with
  | AwaitingClose, [] => {| waits := []; phase := ImmediateQueued; outcome := outcome r |}
  | _, _ => r
  end.

Definition run_step (r : Run) (ev : Event) : Run :=
  microtasks
    match ev with
    | EvSockClose conn =>
        {| waits := filter (fun w => negb (Nat.eqb w conn)) (waits r);
           phase := phase r; outcome := outcome r |}
    | EvServerClosed (Some err) => reject err r
    | EvServerClosed None => r
    | EvImmediate =>
        match phase r with
        | ImmediateQueued =>
            resolve {| waits := waits r; phase := ImmediateRan; outcome := outcome r |}
        | _ => r
        end
    | EvAccept _ _ _ _ => r
    end.

Definition run_events (evs : list Event) (r : Run) : Run :=
  fold_left run_step evs r.

(** The shape of a promise whose immediate has not run yet. *)
Definition not_yet (r : Run) : Prop :=
  phase r <> ImmediateRan /\
  (phase r = ImmediateQueued -> waits r = []) /\
  outcome r <> Fulfilled.

Definition server_close_reported (ev : Event) : bool :=
  match ev with EvServerClosed _ => true | _ => false end.

(** ** Calls [destroy()] makes on its collaborators, in order *)

Inductive Call : Type :=
| CallServerClose
| CallOnClose (conn : Handle)
| CallDestroy (conn : Handle).

Definition destroy_calls (cs : list Call) : list Handle :=
  flat_map (fun c => match c with CallDestroy h => [h] | _ => [] end) cs.

Definition onclose_calls (cs : list Call) : list Handle :=
  flat_map (fun c => match c with CallOnClose h => [h] | _ => [] end) cs.

(** ** The historical variant: one socket per key

    [connections[key] = conn] on accept, [delete connections[key]] on
    'close'. *)

Module Historical.

Record Tracker : Type := mkTracker {
  connections : dict Handle;
  closeListeners : list (Handle * string)
}.

Definition makeDestroyable : Tracker :=
  {| connections := []; closeListeners := [] |}.

Definition onConnection (conn : Handle) (a : option string) (p : option N)
  (t : Tracker) : Tracker :=
  let key := registryKey a p in
  {| connections := dict_set key conn (connections t);
     closeListeners := closeListeners t ++ [(conn, key)] |}.

Definition fireClose (conn : Handle) (listeners : list (Handle * string))
  (d : dict Handle) : dict Handle :=
  fold_left
    (fun d l => if Nat.eqb (fst l) conn then dict_delete (snd l) d else d)
    listeners d.

Definition onClose (conn : Handle) (t : Tracker) : Tracker :=
  {| connections := fireClose conn (closeListeners t) (connections t);
     closeListeners := closeListeners t |}.

Definition track (t : Tracker) (ev : Event) : Tracker :=
  match ev with
  | EvAccept _ conn a p => onConnection conn a p t
  | EvSockClose conn => onClose conn t
  | EvServerClosed _ | EvImmediate => t
  end.

Definition track_all (evs : list Event) (t : Tracker) : Tracker :=
  fold_left track evs t.

Definition tracked (d : dict Handle) : list Handle := map snd d.

(** The calls of [destroy()]: [server.close(...)], then
    [connections[key].destroy()] for each key.  (Its promise is settled
    by the server-close callback alone.) *)
Definition destroy (d : dict Handle) : list Call :=
  CallServerClose :: map (fun e => CallDestroy (snd e)) d.

(** [server.close((err) => { if (err) reject(err); else resolve(); })]:
    the promise of this variant is settled by the server-close callback
    and by nothing else. *)
Definition settle (o : Outcome) (ev : Event) : Outcome :=
  match o, ev with
  | Pending, EvServerClosed (Some err) => Rejected err
  | Pending, EvServerClosed None => Fulfilled
  | _, _ => o
  end.

Definition settle_all (evs : list Event) (o : Outcome) : Outcome :=
  fold_left settle evs o.

End Historical.

(** ** The intermediate variant: arrays per key, no waiting

    Its [addConnection], [removeConnection] and handlers are those of
    the current code; its [destroy()] walks each array forwards
    ([for (let conn of connections[key]) conn.destroy()]) and its
    promise is the historical one. *)

Module Intermediate.

Definition destroy (d : Dict) : list Call :=
  CallServerClose :: flat_map (fun e => map CallDestroy (snd e)) d.

End Intermediate.

(** What the first server-close callback among [evs] reported, if any. *)
Fixpoint first_server_close (evs : list Event) : option (option Err) :=
  match evs with
  | [] => None
  | EvServerClosed err :: _ => Some err
  | _ :: rest => first_server_close rest
  end.

(** Events the promise of the current [destroy()] has no handler for:
    connections accepted meanwhile, and a server-close callback that
    reports no error. *)
Definition unheard (ev : Event) : bool :=
  match ev with
  | EvAccept _ _ _ _ | EvServerClosed None => true
  | _ => false
  end.

(** A promise of [destroy()] between events: fulfilled, or pending and
    either waiting for some 'close' or with its immediate queued. *)
Definition on_course (r : Run) : Prop :=
  outcome r = Fulfilled \/
  (outcome r = Pending /\
   ((phase r = AwaitingClose /\ waits r <> []) \/
    (phase r = ImmediateQueued /\ waits r = []))).


(** ** Relating the two variants *)

(** A one-socket-per-key registry read as an array-per-key registry. *)
Definition lift (d : dict Handle) : Dict :=
  map (fun e => (fst e, [snd e])) d.

(** The two trackers hold the same sockets under the same keys in the
    same order, with the same listeners; no two listeners share a key,
    and every socket held still has its listener. *)
Definition agree (h : Historical.Tracker) (t : Tracker) : Prop :=
  connectionDict t = lift (Historical.connections h) /\
  closeListeners t = Historical.closeListeners h /\
  NoDup (map snd (closeListeners t)) /\
  (forall k c, In (k, c) (Historical.connections h) -> In (c, k) (closeListeners t)).

(** ** Concrete sockets, for the examples *)

(** Node's own [destroy()]: the socket's [destroyed] is set by the time
    the call returns. *)
Definition node_destroy (conn : Handle) (flags : Flags) : Flags :=
  fun h => if Nat.eqb h conn
           then {| closed := closed (flags h); destroyed := true |}
           else flags h.

Definition all_open : Flags := fun _ => {| closed := false; destroyed := false |}.

Definition no_parent : Handle -> option Handle := fun _ => None.

(** Socket 1 wraps socket 0 (a TLS socket over its raw socket). *)
Definition tls_over_raw : Handle -> option Handle :=
  fun h => match h with 1 => Some 0 | _ => None end.

(** Socket 0 is destroyed already; socket 1 wraps it and is not. *)
Definition raw_destroyed : Flags :=
  fun h => match h with
           | 0 => {| closed := false; destroyed := true |}
           | _ => {| closed := false; destroyed := false |}
           end.

(** Two streams given the same address and port, as in the test "can
    shut down a server with duplicate connections". *)
Definition two_streams : list Event :=
  [EvAccept false 0 (Some "1.2.3.4") (Some 1234%N);
   EvAccept false 1 (Some "1.2.3.4") (Some 1234%N)].

(** Sockets 0 and 1 name each other as parent. *)
Definition parent_cycle : Handle -> option Handle :=
  fun h => match h with 0 => Some 1 | 1 => Some 0 | _ => None end.

(** ** [checkDestroyed] and [destroy()]

    The sockets belong to the environment: [parentOf conn] is
    [conn._parent] ([None] when it is missing; the links are set when a
    wrapping socket is built and stay), and [sock_destroy conn] is
    whatever [conn.destroy()] does to the status properties of the
    sockets before it returns.  The 'close' events it causes come later,
    as events, so the registry is not touched while the loops run. *)

Section Orchestrator.

Variable parentOf : Handle -> option Handle.
Variable sock_destroy : Handle -> Flags -> Flags.

#[local] Set Default Proof Using "Type".

(** The [do ... while (conn)] loop: [conn] is an object whenever the
    condition is evaluated, so the loop only ends by one of the two
    [return]s.  [fuel] bounds the number of iterations; [None] is a loop
    that has not returned within it. *)
Fixpoint checkDestroyed (fuel : nat) (flags : Flags) (conn : Handle) : option bool :=
  match fuel with
  | O => None
  | S fuel' =>
      if destroyed (flags conn) then Some true
      else match parentOf conn with
           | None => Some false
           | Some p => checkDestroyed fuel' flags p
           end
  end.

(** [conn.closed || checkDestroyed(conn)] *)
Definition reportsClosed (fuel : nat) (flags : Flags) (conn : Handle) : option bool :=
  if closed (flags conn) then Some true else checkDestroyed fuel flags conn.

(** State threaded through the loops of [destroy()]. *)
Record Loop : Type := mkLoop {
  l_flags : Flags;
  l_calls : list Call;
  l_waits : list Handle
}.

(** One iteration of the inner loop: the close promise (resolved at
    once, or armed with [conn.on('close', resolve)]), then
    [conn.destroy()]. *)
Definition destroyConnection (fuel : nat) (conn : Handle) (st : Loop) : option Loop :=
  match reportsClosed fuel (l_flags st) conn with
  | None => None
  | Some true =>
      Some {| l_flags := sock_destroy conn (l_flags st);
              l_calls := l_calls st ++ [CallDestroy conn];
              l_waits := l_waits st |}
  | Some false =>
      Some {| l_flags := sock_destroy conn (l_flags st);
              l_calls := l_calls st ++ [CallOnClose conn; CallDestroy conn];
              l_waits := l_waits st ++ [conn] |}
  end.

(** [for (let i = n - 1; i >= 0; i--) { const conn = connections[i]; ... }]
    with [n] iterations left.  [i] stays below the length, so
    [connections[i]] is always an element. *)
Fixpoint destroyConnections (fuel n : nat) (connections : list Handle) (st : Loop)
  : option Loop :=
  match n with
  | O => Some st
  | S i =>
      match nth_error connections i with
      | None => None
      | Some conn =>
          match destroyConnection fuel conn st with
          | None => None
          | Some st' => destroyConnections fuel i connections st'
          end
      end
  end.

(** [for (let key in connectionDict) { ... }] *)
Fixpoint destroyKeys (fuel : nat) (entries : Dict) (st : Loop) : option Loop :=
  match entries with
  | [] => Some st
  | (_, connections) :: rest =>
      match destroyConnections fuel (List.length connections) connections st with
      | None => None
      | Some st' => destroyKeys fuel rest st'
      end
  end.

Record Destroyed : Type := mkDestroyed {
  calls : list Call;
  flags_after : Flags;
  promise : Run
}.

(** The synchronous part of [destroy()], up to and including the
    microtasks that follow it. *)
Definition destroy (fuel : nat) (flags : Flags) (d : Dict) : option Destroyed :=
  match destroyKeys fuel d {| l_flags := flags; l_calls := [CallServerClose]; l_waits := [] |} with
  | None => None
  | Some st =>
      Some {| calls := l_calls st;
              flags_after := l_flags st;
              promise := microtasks {| waits := l_waits st; phase := AwaitingClose;
                                       outcome := Pending |} |}
  end.

(** *** Vocabulary for the statements *)

(** [on_chain c c']: [c'] is [c] or one of its ancestors. *)
Inductive on_chain : Handle -> Handle -> Prop :=
| chain_self : forall c, on_chain c c
| chain_parent : forall c p c', parentOf c = Some p -> on_chain p c' -> on_chain c c'.

(** The parent chain of [c] ends: it is finite and has no cycle. *)
Inductive finite_chain : Handle -> Prop :=
| chain_root : forall c, parentOf c = None -> finite_chain c
| chain_step : forall c p, parentOf c = Some p -> finite_chain p -> finite_chain c.

(** The order in which [destroy()] visits the sockets of a registry. *)
Definition visit_order (d : Dict) : list Handle :=
  flat_map (fun e => rev (snd e)) d.

(** The status properties as they are once [conn.destroy()] has been
    called on each socket of [visited], in order. *)
Definition flags_when (visited : list Handle) (flags : Flags) : Flags :=
  fold_left (fun f c => sock_destroy c f) visited flags.

(** The status properties say that [c] is closed: its own [closed], or
    [destroyed] on [c] or on one of its ancestors. *)
Definition closed_by_flags (flags : Flags) (c : Handle) : Prop :=
  closed (flags c) = true \/
  exists c', on_chain c c' /\ destroyed (flags c') = true.

(** The loop body run on each socket of a list in turn. *)
Fixpoint destroyEach (fuel : nat) (conns : list Handle) (st : Loop) : option Loop :=
  match conns with
  | [] => Some st
  | conn :: rest =>
      match destroyConnection fuel conn st with
      | None => None
      | Some st' => destroyEach fuel rest st'
      end
  end.

(** [destroy()] returns, and what it returns satisfies [P]. *)
Definition destroy_returns (flags : Flags) (d : Dict) (P : Destroyed -> Prop) : Prop :=
  (exists fuel res, destroy fuel flags d = Some res) /\
  (forall fuel res, destroy fuel flags d = Some res -> P res).

(** [conn.destroy()] never clears a status property. *)
Definition latching : Prop :=
  forall c flags h,
    (closed (flags h) = true -> closed (sock_destroy c flags h) = true) /\
    (destroyed (flags h) = true -> destroyed (sock_destroy c flags h) = true).

(** * Proofs *)

(** ** Dictionaries *)

Lemma dict_get_set_same {V} (k : string) (v : V) (d : dict V) :
  dict_get k (dict_set k v d) = Some v.
Proof.
  induction d as [|[k0 v0] d IH]; simpl.
  - now rewrite String.eqb_refl.
  - destruct (String.eqb k0 k) eqn:E; simpl; rewrite E; auto.
Qed.

Lemma dict_get_set_other {V} (k k' : string) (v : V) (d : dict V) :
  k' <> k -> dict_get k' (dict_set k v d) = dict_get k' d.
Proof.
  intros Hne. induction d as [|[k0 v0] d IH]; simpl.
  - destruct (String.eqb_spec k k'); congruence.
  - destruct (String.eqb_spec k0 k); simpl.
    + subst k0. destruct (String.eqb_spec k k'); congruence.
    + now rewrite IH.
Qed.

Lemma dict_get_delete_same {V} (k : string) (d : dict V) :
  dict_get k (dict_delete k d) = None.
Proof.
  induction d as [|[k0 v0] d IH]; simpl; auto.
  destruct (String.eqb k0 k) eqn:E; simpl; auto. now rewrite E.
Qed.

Lemma dict_get_delete_other {V} (k k' : string) (d : dict V) :
  k' <> k -> dict_get k' (dict_delete k d) = dict_get k' d.
Proof.
  intros Hne. induction d as [|[k0 v0] d IH]; simpl; auto.
  destruct (String.eqb_spec k0 k); simpl.
  - subst k0. destruct (String.eqb_spec k k'); congruence.
  - now rewrite IH.
Qed.

Lemma dict_get_In {V} (k : string) (v : V) (d : dict V) :
  dict_get k d = Some v -> In (k, v) d.
Proof.
  induction d as [|[k0 v0] d IH]; simpl; [discriminate|].
  destruct (String.eqb_spec k0 k); intros H.
  - inversion H; subst; auto.
  - auto.
Qed.

Lemma dict_get_None_keys {V} (k : string) (d : dict V) :
  dict_get k d = None <-> ~ In k (map fst d).
Proof.
  induction d as [|[k0 v0] d IH]; simpl; [tauto|].
  destruct (String.eqb_spec k0 k); split; intros H.
  - discriminate.
  - exfalso; apply H; auto.
  - intros [?|?]; [congruence|]. now apply IH.
  - apply IH. tauto.
Qed.

Lemma In_dict_get {V} (k : string) (v : V) (d : dict V) :
  NoDup (map fst d) -> In (k, v) d -> dict_get k d = Some v.
Proof.
  induction d as [|[k0 v0] d IH]; simpl; [tauto|].
  intros Hnd [Heq|Hin]; inversion Hnd; subst.
  - inversion Heq; subst. now rewrite String.eqb_refl.
  - destruct (String.eqb_spec k0 k); [|auto].
    subst k0. exfalso. apply H1. change k with (fst (k, v)). now apply in_map.
Qed.

Lemma dict_set_new {V} (k : string) (v : V) (d : dict V) :
  dict_get k d = None -> dict_set k v d = d ++ [(k, v)].
Proof.
  induction d as [|[k0 v0] d IH]; simpl; auto.
  destruct (String.eqb k0 k); [discriminate|]. intros H. now rewrite IH.
Qed.

Lemma dict_set_split {V} (k : string) (v0 v : V) (d : dict V) :
  dict_get k d = Some v0 ->
  exists d1 d2, d = d1 ++ (k, v0) :: d2 /\ dict_get k d1 = None /\
                dict_set k v d = d1 ++ (k, v) :: d2.
Proof.
  induction d as [|[k0 w] d IH]; simpl; [discriminate|].
  destruct (String.eqb_spec k0 k); intros H.
  - inversion H; subst. now exists [], d.
  - destruct (IH H) as (d1 & d2 & -> & Hg & ->).
    exists ((k0, w) :: d1), d2. simpl.
    destruct (String.eqb_spec k0 k); [congruence|]. auto.
Qed.

Lemma dict_delete_absent {V} (k : string) (d : dict V) :
  dict_get k d = None -> dict_delete k d = d.
Proof.
  induction d as [|[k0 v0] d IH]; simpl; auto.
  destruct (String.eqb k0 k); [discriminate|]. intros H. now rewrite IH.
Qed.

Lemma dict_delete_In {V} (k : string) (e : string * V) (d : dict V) :
  In e (dict_delete k d) -> In e d.
Proof.
  induction d as [|[k0 v0] d IH]; simpl; auto.
  destruct (String.eqb k0 k); simpl; intuition.
Qed.

Lemma dict_delete_keys {V} (k : string) (d : dict V) :
  NoDup (map fst d) -> NoDup (map fst (dict_delete k d)).
Proof.
  induction d as [|[k0 v0] d IH]; simpl; auto.
  intros Hnd. inversion Hnd; subst.
  destruct (String.eqb k0 k); simpl; auto.
  constructor; auto.
  intros Hin. apply H1. apply in_map_iff in Hin as ([k1 v1] & Heq & Hin).
  simpl in Heq; subst k1. apply dict_delete_In in Hin.
  change k0 with (fst (k0, v1)). now apply in_map.
Qed.

Lemma dict_set_keys {V} (k : string) (v : V) (d : dict V) :
  NoDup (map fst d) -> NoDup (map fst (dict_set k v d)).
Proof.
  intros Hnd. destruct (dict_get k d) as [v0|] eqn:E.
  - destruct (dict_set_split k v0 v d E) as (d1 & d2 & Hd & _ & ->).
    subst d. now rewrite map_app in *.
  - rewrite dict_set_new by auto. rewrite map_app. simpl.
    apply NoDup_app; repeat split; auto.
    + constructor; [intros []|constructor].
    + intros x Hx [<-|[]]. now apply dict_get_None_keys in E.
Qed.

Lemma dict_set_In {V} (k : string) (v : V) (e : string * V) (d : dict V) :
  In e (dict_set k v d) -> e = (k, v) \/ In e d.
Proof.
  induction d as [|[k0 v0] d IH]; simpl; [intuition|].
  destruct (String.eqb_spec k0 k); simpl; intros [H|H]; subst; auto.
  destruct (IH H); auto.
Qed.

(** ** Arrays: [indexOf] and [splice] *)

Lemma indexOf_ge (c : Handle) (l : list Handle) : (-1 <= indexOf c l)%Z.
Proof.
  induction l as [|x l IH]; simpl; [lia|].
  destruct (Nat.eqb x c); [lia|].
  destruct (Z.eqb_spec (indexOf c l) (-1)); lia.
Qed.

Lemma indexOf_absent (c : Handle) (l : list Handle) :
  ~ In c l <-> indexOf c l = (-1)%Z.
Proof.
  induction l as [|x l IH]; simpl; [split; auto|].
  destruct (Nat.eqb_spec x c) as [Hx|Hx].
  - split; [|lia]. intros H. exfalso. apply H. auto.
  - pose proof (indexOf_ge c l) as Hge.
    destruct (Z.eqb_spec (indexOf c l) (-1)) as [Hi|Hi]; split; intros H0.
    + reflexivity.
    + intros [?|Hin]; [congruence|]. exact (proj2 IH Hi Hin).
    + exfalso. apply Hi, IH. intros Hin. apply H0. auto.
    + lia.
Qed.

(** When present, [indexOf] is the index of an occurrence. *)
Lemma indexOf_present (c : Handle) (l : list Handle) :
  In c l ->
  exists i, indexOf c l = Z.of_nat i /\ nth_error l i = Some c.
Proof.
  induction l as [|x l IH]; simpl; [intros []|].
  intros Hin. destruct (Nat.eqb_spec x c).
  - subst. now exists 0.
  - destruct Hin as [?|Hin]; [congruence|].
    destruct (IH Hin) as (i & Hi & Hn).
    exists (S i). rewrite Hi.
    destruct (Z.eqb_spec (Z.of_nat i) (-1)); [lia|]. split; [lia|auto].
Qed.

Lemma splice1_In (i : nat) (x : Handle) (l : list Handle) :
  In x (splice1 i l) -> In x l.
Proof.
  revert i; induction l as [|y l IH]; intros [|i]; simpl; auto.
  intros [?|?]; eauto.
Qed.

Lemma splice1_In_other (i : nat) (c x : Handle) (l : list Handle) :
  nth_error l i = Some c -> x <> c -> In x l -> In x (splice1 i l).
Proof.
  revert i; induction l as [|y l IH]; intros [|i]; simpl; try discriminate.
  - intros H Hne [?|?]; [congruence|auto].
  - intros H Hne [?|?]; eauto.
Qed.

Lemma splice1_count (i : nat) (c x : Handle) (l : list Handle) :
  nth_error l i = Some c ->
  count_occ Nat.eq_dec l x =
  count_occ Nat.eq_dec (splice1 i l) x + (if Nat.eq_dec c x then 1 else 0).
Proof.
  revert i; induction l as [|y l IH]; intros [|i]; simpl; try discriminate.
  - intros H; inversion H; subst. destruct (Nat.eq_dec c x); lia.
  - intros H. rewrite (IH _ H). destruct (Nat.eq_dec y x); lia.
Qed.

Lemma splice1_length (i : nat) (c : Handle) (l : list Handle) :
  nth_error l i = Some c -> List.length l = S (List.length (splice1 i l)).
Proof.
  revert i; induction l as [|y l IH]; intros [|i]; simpl; try discriminate; auto.
Qed.

(** ** The three ways [removeConnection] can go *)

Lemma removeConnection_cases (k : string) (c : Handle) (d : Dict) :
  (removeConnection k c d = d /\
   ~ (exists conns, dict_get k d = Some conns /\ In c conns))
  \/ (dict_get k d = Some [c] /\ removeConnection k c d = dict_delete k d)
  \/ (exists conns i,
        dict_get k d = Some conns /\ nth_error conns i = Some c /\
        2 <= List.length conns /\
        removeConnection k c d = dict_set k (splice1 i conns) d).
Proof.
  unfold removeConnection.
  destruct (dict_get k d) as [conns|] eqn:E.
  2:{ left. split; auto. intros (? & ? & _); discriminate. }
  destruct (in_dec Nat.eq_dec c conns) as [Hin|Hout].
  - destruct (indexOf_present c conns Hin) as (i & Hi & Hn).
    rewrite Hi.
    destruct (Nat.eqb_spec (List.length conns) 1) as [Hl|Hl]; simpl.
    + destruct conns as [|x [|y conns]]; simpl in Hl; try discriminate.
      destruct i as [|i]; simpl in Hn; [|destruct i; discriminate].
      inversion Hn; subst. simpl. right; left. auto.
    + destruct (Z.eqb_spec (Z.of_nat i) (-1)); [lia|]. simpl.
      right; right. exists conns, i. rewrite Nat2Z.id.
      repeat split; auto.
      destruct conns as [|x [|y conns]]; simpl in *; [destruct Hin|congruence|lia].
  - left. pose proof (proj1 (indexOf_absent c conns) Hout) as Hi. rewrite Hi.
    rewrite andb_false_r. simpl. split; auto.
    intros (l & Hl & Hin). inversion Hl; subst. contradiction.
Qed.

(** ** The registry: what [addConnection] and [removeConnection] do to
    the tracked handles *)

Lemma tracked_app (d1 d2 : Dict) : tracked (d1 ++ d2) = tracked d1 ++ tracked d2.
Proof. unfold tracked. now rewrite map_app, concat_app. Qed.

Lemma tracked_cons (k : string) (l : list Handle) (d : Dict) :
  tracked ((k, l) :: d) = l ++ tracked d.
Proof. reflexivity. Qed.

Lemma tracked_In (c : Handle) (d : Dict) :
  In c (tracked d) <-> exists k conns, In (k, conns) d /\ In c conns.
Proof.
  unfold tracked. rewrite in_concat. split.
  - intros (l & Hl & Hc). apply in_map_iff in Hl as ([k conns] & <- & Hin).
    now exists k, conns.
  - intros (k & conns & Hin & Hc). exists conns. split; auto.
    change conns with (snd (k, conns)). now apply in_map.
Qed.

Lemma addConnection_set (k : string) (c : Handle) (d : Dict) :
  addConnection k c d = dict_set k (conns_of k d ++ [c]) d.
Proof. unfold addConnection, conns_of, push. now destruct (dict_get k d). Qed.

Lemma conns_of_addConnection (k k' : string) (c : Handle) (d : Dict) :
  conns_of k' (addConnection k c d) =
  if String.eqb k k' then conns_of k d ++ [c] else conns_of k' d.
Proof.
  rewrite addConnection_set. unfold conns_of at 1.
  destruct (String.eqb_spec k k').
  - subst. now rewrite dict_get_set_same.
  - rewrite dict_get_set_other by congruence. reflexivity.
Qed.

Lemma tracked_addConnection (k : string) (c x : Handle) (d : Dict) :
  count_occ Nat.eq_dec (tracked (addConnection k c d)) x =
  count_occ Nat.eq_dec (tracked d) x + (if Nat.eq_dec c x then 1 else 0).
Proof.
  rewrite addConnection_set. unfold conns_of.
  destruct (dict_get k d) as [l|] eqn:E.
  - destruct (dict_set_split k l (l ++ [c]) d E) as (d1 & d2 & -> & _ & ->).
    rewrite !tracked_app, !tracked_cons.
    rewrite !count_occ_app. simpl. destruct (Nat.eq_dec c x); lia.
  - rewrite dict_set_new by auto. rewrite tracked_app, count_occ_app.
    rewrite tracked_cons. unfold tracked. simpl. destruct (Nat.eq_dec c x); lia.
Qed.

Lemma tracked_delete_le (k : string) (x : Handle) (d : Dict) :
  count_occ Nat.eq_dec (tracked (dict_delete k d)) x <=
  count_occ Nat.eq_dec (tracked d) x.
Proof.
  induction d as [|[k0 l] d IH]; simpl; auto.
  rewrite tracked_cons, count_occ_app.
  destruct (String.eqb k0 k); [lia|].
  rewrite tracked_cons, count_occ_app. lia.
Qed.

Lemma tracked_removeConnection_le (k : string) (c x : Handle) (d : Dict) :
  count_occ Nat.eq_dec (tracked (removeConnection k c d)) x <=
  count_occ Nat.eq_dec (tracked d) x.
Proof.
  destruct (removeConnection_cases k c d)
    as [[-> _]|[[_ ->]|(l & i & E & Hn & _ & ->)]]; auto.
  - apply tracked_delete_le.
  - destruct (dict_set_split k l (splice1 i l) d E) as (d1 & d2 & -> & _ & ->).
    rewrite !tracked_app, !tracked_cons.
    rewrite !count_occ_app. rewrite (splice1_count i c x l Hn). lia.
Qed.

Lemma tracked_removeConnection_In (k : string) (c x : Handle) (d : Dict) :
  In x (tracked (removeConnection k c d)) -> In x (tracked d).
Proof.
  rewrite !(count_occ_In Nat.eq_dec).
  pose proof (tracked_removeConnection_le k c x d). lia.
Qed.

Lemma tracked_addConnection_In (k : string) (c x : Handle) (d : Dict) :
  In x (tracked (addConnection k c d)) <-> x = c \/ In x (tracked d).
Proof.
  rewrite !(count_occ_In Nat.eq_dec), tracked_addConnection.
  destruct (Nat.eq_dec c x); split; intros H; try lia; auto.
Qed.

(** ** The registry invariant *)

Lemma addConnection_no_empty (k : string) (c : Handle) (d : Dict) :
  no_empty d -> no_empty (addConnection k c d).
Proof.
  intros Hne k' l Hin. rewrite addConnection_set in Hin.
  apply dict_set_In in Hin as [Heq|Hin]; [|eauto].
  inversion Heq; subst. now destruct (conns_of k d).
Qed.

Lemma removeConnection_no_empty (k : string) (c : Handle) (d : Dict) :
  no_empty d -> no_empty (removeConnection k c d).
Proof.
  intros Hne k' l' Hin.
  destruct (removeConnection_cases k c d)
    as [[E _]|[[_ E]|(l & i & _ & Hn & Hlen & E)]]; rewrite E in Hin.
  - eauto.
  - apply dict_delete_In in Hin. eauto.
  - apply dict_set_In in Hin as [Heq|Hin]; [|eauto].
    inversion Heq; subst. pose proof (splice1_length i c l Hn).
    destruct (splice1 i l); simpl in *; [lia|discriminate].
Qed.

Lemma addConnection_keys (k : string) (c : Handle) (d : Dict) :
  NoDup (map fst d) -> NoDup (map fst (addConnection k c d)).
Proof. rewrite addConnection_set. apply dict_set_keys. Qed.

Lemma removeConnection_keys (k : string) (c : Handle) (d : Dict) :
  NoDup (map fst d) -> NoDup (map fst (removeConnection k c d)).
Proof.
  intros Hnd.
  destruct (removeConnection_cases k c d)
    as [[-> _]|[[_ ->]|(l & i & _ & _ & _ & ->)]]; auto.
  - now apply dict_delete_keys.
  - now apply dict_set_keys.
Qed.

Lemma addConnection_inv (k : string) (c : Handle) (d : Dict) :
  registry_inv d -> ~ In c (tracked d) -> registry_inv (addConnection k c d).
Proof.
  intros (Hk & Hne & Hnd) Hout. repeat split.
  - now apply addConnection_keys.
  - now apply addConnection_no_empty.
  - apply (NoDup_count_occ Nat.eq_dec). intros x.
    rewrite tracked_addConnection.
    pose proof (proj1 (NoDup_count_occ Nat.eq_dec _) Hnd x).
    destruct (Nat.eq_dec c x); [|lia]. subst x.
    apply (count_occ_not_In Nat.eq_dec) in Hout. lia.
Qed.

Lemma removeConnection_inv (k : string) (c : Handle) (d : Dict) :
  registry_inv d -> registry_inv (removeConnection k c d).
Proof.
  intros (Hk & Hne & Hnd). repeat split.
  - now apply removeConnection_keys.
  - now apply removeConnection_no_empty.
  - apply (NoDup_count_occ Nat.eq_dec). intros x.
    pose proof (proj1 (NoDup_count_occ Nat.eq_dec _) Hnd x).
    pose proof (tracked_removeConnection_le k c x d). lia.
Qed.

(** C5 (P4, idempotent unregister): when [conn] is not held under
    [key] -- the key may be absent altogether -- [removeConnection]
    returns normally and the whole registry is what it was. *)
Theorem removeConnection_absent_noop (d : Dict) (key : string) (conn : Handle) :
  ~ (exists conns, dict_get key d = Some conns /\ In conn conns) ->
  removeConnection key conn d = d.
Proof.
  intros Habs.
  destruct (removeConnection_cases key conn d)
    as [[E _]|[[E _]|(l & i & E & Hn & _)]]; auto; exfalso; apply Habs.
  - exists [conn]. split; simpl; auto.
  - exists l. split; auto. eapply nth_error_In; eauto.
Qed.

(** C9 (registry invariant): from a registry with distinct keys, no
    empty array and no handle held twice, every sequence of register and
    unregister operations leads to such a registry again, provided the
    handles it registers are pairwise distinct and not already held. *)
Theorem registry_inv_preserved (ops : list RegOp) (d : Dict) :
  registry_inv d ->
  NoDup (registered ops) ->
  (forall c, In c (registered ops) -> ~ In c (tracked d)) ->
  registry_inv (apply_ops ops d).
Proof.
  revert d. induction ops as [|[k c|k c] ops IH]; intros d Hinv Hnd Hfresh; simpl; auto.
  - simpl in Hnd. inversion Hnd; subst.
    apply IH; auto.
    + apply addConnection_inv; auto. apply Hfresh. simpl; auto.
    + intros x Hx Hin. apply tracked_addConnection_In in Hin as [->|Hin]; [contradiction|].
      apply (Hfresh x); simpl; auto.
  - apply IH; auto.
    + now apply removeConnection_inv.
    + intros x Hx Hin. apply tracked_removeConnection_In in Hin.
      apply (Hfresh x); simpl; auto.
Qed.

(** ** Accept and close events *)

Lemma conns_of_tracked (c : Handle) (d : Dict) :
  NoDup (map fst d) ->
  (In c (tracked d) <-> exists k, In c (conns_of k d)).
Proof.
  intros Hnd. rewrite tracked_In. split.
  - intros (k & l & Hin & Hc). exists k. unfold conns_of.
    now rewrite (In_dict_get k l d Hnd Hin).
  - intros (k & Hc). unfold conns_of in Hc.
    destruct (dict_get k d) as [l|] eqn:E; [|destruct Hc].
    exists k, l. split; auto. now apply dict_get_In.
Qed.

Lemma conns_of_removeConnection_other (k k' : string) (c x : Handle) (d : Dict) :
  k' <> k \/ x <> c ->
  count_occ Nat.eq_dec (conns_of k' (removeConnection k c d)) x =
  count_occ Nat.eq_dec (conns_of k' d) x.
Proof.
  intros Hne.
  destruct (removeConnection_cases k c d)
    as [[-> _]|[[E ->]|(l & i & E & Hn & _ & ->)]]; auto;
    unfold conns_of; destruct (String.eqb_spec k' k) as [->|Hk].
  - rewrite dict_get_delete_same, E. simpl.
    destruct (Nat.eq_dec c x); [|reflexivity]. destruct Hne; congruence.
  - now rewrite dict_get_delete_other.
  - rewrite dict_get_set_same, E.
    pose proof (splice1_count i c x l Hn) as Hc.
    destruct (Nat.eq_dec c x); [destruct Hne; congruence|lia].
  - now rewrite dict_get_set_other.
Qed.

Lemma conns_of_removeConnection_same (k : string) (c : Handle) (d : Dict) :
  count_occ Nat.eq_dec (conns_of k (removeConnection k c d)) c =
  pred (count_occ Nat.eq_dec (conns_of k d) c).
Proof.
  destruct (removeConnection_cases k c d)
    as [[-> Habs]|[[E ->]|(l & i & E & Hn & _ & ->)]]; unfold conns_of.
  - destruct (dict_get k d) as [l|] eqn:E; [|reflexivity].
    rewrite (proj1 (count_occ_not_In Nat.eq_dec l c)); [reflexivity|].
    intros Hin. apply Habs. eauto.
  - rewrite dict_get_delete_same, E. simpl. now destruct (Nat.eq_dec c c).
  - rewrite dict_get_set_same, E.
    pose proof (splice1_count i c c l Hn) as Hc.
    destruct (Nat.eq_dec c c); [lia|congruence].
Qed.

Lemma listening_app (c : Handle) (k : string) (l1 l2 : list (Handle * string)) :
  listening c k (l1 ++ l2) = listening c k l1 + listening c k l2.
Proof. unfold listening. now rewrite filter_app, length_app. Qed.

(** Firing the 'close' listeners of [c] removes one occurrence per
    listener, and touches nothing else. *)
Lemma fireClose_same (c : Handle) (k : string) (ls : list (Handle * string)) (d : Dict) :
  count_occ Nat.eq_dec (conns_of k (fireClose c ls d)) c =
  count_occ Nat.eq_dec (conns_of k d) c - listening c k ls.
Proof.
  revert d. induction ls as [|[c0 k0] ls IH]; intros d; simpl.
  - unfold listening; simpl. lia.
  - change ((c0, k0) :: ls) with ([(c0, k0)] ++ ls).
    rewrite listening_app. unfold fireClose in *. rewrite IH.
    unfold listening at 2. simpl.
    destruct (Nat.eqb_spec c0 c) as [->|Hc]; simpl; [|lia].
    destruct (String.eqb_spec k0 k) as [->|Hk]; simpl.
    + rewrite conns_of_removeConnection_same. lia.
    + rewrite conns_of_removeConnection_other by (left; congruence). lia.
Qed.

Lemma fireClose_le (c x : Handle) (k : string) (ls : list (Handle * string)) (d : Dict) :
  count_occ Nat.eq_dec (conns_of k (fireClose c ls d)) x <=
  count_occ Nat.eq_dec (conns_of k d) x.
Proof.
  revert d. induction ls as [|[c0 k0] ls IH]; intros d; simpl; auto.
  unfold fireClose in *. etransitivity; [apply IH|].
  simpl. destruct (Nat.eqb_spec c0 c) as [->|Hc]; auto.
  destruct (String.eqb_spec k k0) as [->|Hk].
  - destruct (Nat.eq_dec x c) as [->|Hx].
    + rewrite conns_of_removeConnection_same. lia.
    + rewrite conns_of_removeConnection_other by (right; congruence). lia.
  - rewrite conns_of_removeConnection_other by (left; congruence). lia.
Qed.

Lemma fireClose_tracked_In (c x : Handle) (ls : list (Handle * string)) (d : Dict) :
  In x (tracked (fireClose c ls d)) -> In x (tracked d).
Proof.
  revert d. induction ls as [|[c0 k0] ls IH]; intros d; simpl; auto.
  intros H. apply IH in H. simpl in H.
  destruct (Nat.eqb c0 c); auto. now apply tracked_removeConnection_In in H.
Qed.

Lemma fireClose_keys (c : Handle) (ls : list (Handle * string)) (d : Dict) :
  NoDup (map fst d) -> NoDup (map fst (fireClose c ls d)).
Proof.
  revert d. induction ls as [|[c0 k0] ls IH]; intros d Hd; simpl; auto.
  apply IH. simpl. destruct (Nat.eqb c0 c); auto. now apply removeConnection_keys.
Qed.

Lemma fireClose_no_empty (c : Handle) (ls : list (Handle * string)) (d : Dict) :
  no_empty d -> no_empty (fireClose c ls d).
Proof.
  revert d. induction ls as [|[c0 k0] ls IH]; intros d Hd; simpl; auto.
  apply IH. simpl. destruct (Nat.eqb c0 c); auto. now apply removeConnection_no_empty.
Qed.

Lemma makeDestroyable_inv : tracker_inv makeDestroyable.
Proof.
  split; [constructor|split].
  - intros k l [].
  - intros k c. unfold listening; simpl. lia.
Qed.

Lemma track_inv (t : Tracker) (ev : Event) : tracker_inv t -> tracker_inv (track t ev).
Proof.
  intros (Hk & Hne & Hcnt).
  destruct ev as [s c a p|c|e|]; simpl;
    try exact (conj Hk (conj Hne Hcnt)); (split; [|split]); simpl.
  - now apply addConnection_keys.
  - now apply addConnection_no_empty.
  - intros k x. rewrite conns_of_addConnection, listening_app.
    specialize (Hcnt k x). unfold listening at 2. simpl.
    destruct (String.eqb_spec (registryKey a p) k) as [->|Hk'].
    + rewrite count_occ_app. simpl. rewrite Nat.eqb_sym.
      destruct (Nat.eq_dec c x) as [->|Hx].
      * rewrite Nat.eqb_refl. simpl. lia.
      * destruct (Nat.eqb_spec x c); [congruence|]. simpl. lia.
    + rewrite andb_false_r. simpl. lia.
  - now apply fireClose_keys.
  - now apply fireClose_no_empty.
  - intros k x. specialize (Hcnt k x).
    pose proof (fireClose_le c x k (closeListeners t) (connectionDict t)). lia.
Qed.

Lemma track_all_inv (evs : list Event) (t : Tracker) :
  tracker_inv t -> tracker_inv (track_all evs t).
Proof.
  revert t. induction evs as [|ev evs IH]; intros t Ht; simpl; auto.
  apply IH. now apply track_inv.
Qed.

(** Once [c] has emitted 'close', the registry no longer holds it. *)
Lemma onClose_untracked (c : Handle) (t : Tracker) :
  tracker_inv t -> ~ In c (tracked (connectionDict (onClose c t))).
Proof.
  intros Ht Hin.
  pose proof (track_inv t (EvSockClose c) Ht) as (Hk' & _ & _).
  destruct Ht as (_ & _ & Hcnt).
  apply (conns_of_tracked c _ Hk') in Hin as (k & Hin).
  apply (count_occ_In Nat.eq_dec) in Hin. simpl in Hin.
  rewrite fireClose_same in Hin. specialize (Hcnt k c). lia.
Qed.

(** What is still held after events that close every connection they
    accept was held before them, and was never closed by them. *)
Lemma leftover_tracked (evs : list Event) (t : Tracker) (c : Handle) :
  tracker_inv t -> all_closed_later evs ->
  In c (tracked (connectionDict (track_all evs t))) ->
  In c (tracked (connectionDict t)) /\ ~ In (EvSockClose c) evs.
Proof.
  revert t. induction evs as [|ev evs IH]; intros t Ht Hcl Hin; simpl in *; auto.
  pose proof (track_inv t ev Ht) as Ht1.
  destruct ev as [s c0 a p|c0|e|]; simpl in Hcl.
  - destruct Hcl as [Hc0 Hcl].
    destruct (IH _ Ht1 Hcl Hin) as [Hin1 Hno]. simpl in Hin1.
    apply tracked_addConnection_In in Hin1 as [->|Hin1]; [contradiction|].
    split; auto. intros [?|?]; [discriminate|contradiction].
  - destruct (IH _ Ht1 Hcl Hin) as [Hin1 Hno].
    assert (c <> c0) by (intros ->; now apply (onClose_untracked c0 t Ht)).
    simpl in Hin1. apply fireClose_tracked_In in Hin1.
    split; auto. intros [?|?]; [congruence|contradiction].
  - destruct (IH _ Ht1 Hcl Hin) as [Hin1 Hno].
    split; auto. intros [?|?]; [discriminate|contradiction].
  - destruct (IH _ Ht1 Hcl Hin) as [Hin1 Hno].
    split; auto. intros [?|?]; [discriminate|contradiction].
Qed.

Lemma no_empty_untracked (d : Dict) : no_empty d -> tracked d = [] -> d = [].
Proof.
  destruct d as [|[k l] d]; auto. intros Hne Ht.
  rewrite tracked_cons in Ht. apply app_eq_nil in Ht as [-> _].
  exfalso. apply (Hne k []); simpl; auto.
Qed.

(** C3 (P1, registration/removal symmetry): starting from the registry
    [makeDestroyable] creates, after any sequence of events in which
    every accepted connection emits 'close' later on, the registry is
    empty. *)
Theorem registry_empty_after_closes (evs : list Event) :
  all_closed_later evs ->
  connectionDict (track_all evs makeDestroyable) = [].
Proof.
  intros Hcl.
  pose proof (track_all_inv evs _ makeDestroyable_inv) as (_ & Hne & _).
  apply no_empty_untracked; auto.
  destruct (tracked _) as [|c l] eqn:E; auto.
  exfalso.
  assert (Hin : In c (tracked (connectionDict (track_all evs makeDestroyable))))
    by (rewrite E; simpl; auto).
  now destruct (leftover_tracked evs _ c makeDestroyable_inv Hcl Hin) as [[] _].
Qed.

(** ** [checkDestroyed] *)

Lemma checkDestroyed_mono (fuel fuel' : nat) (flags : Flags) (c : Handle) (b : bool) :
  checkDestroyed fuel flags c = Some b -> fuel <= fuel' ->
  checkDestroyed fuel' flags c = Some b.
Proof.
  revert fuel' c. induction fuel as [|fuel IH]; intros fuel' c; simpl; [discriminate|].
  intros H Hle. destruct fuel' as [|fuel']; [lia|]. simpl.
  destruct (destroyed (flags c)); auto.
  destruct (parentOf c); auto. apply IH; auto. lia.
Qed.

Lemma checkDestroyed_true (flags : Flags) (c : Handle) :
  (exists fuel, checkDestroyed fuel flags c = Some true) <->
  (exists c', on_chain c c' /\ destroyed (flags c') = true).
Proof.
  split.
  - intros [fuel H]. revert c H. induction fuel as [|fuel IH]; intros c; simpl; [discriminate|].
    destruct (destroyed (flags c)) eqn:Ed.
    + intros _. exists c. split; [constructor|auto].
    + destruct (parentOf c) as [p|] eqn:Ep; [|discriminate].
      intros H. destruct (IH p H) as (c' & Hch & Hd).
      exists c'. split; auto. econstructor; eauto.
  - intros (c' & Hch & Hd). induction Hch as [c|c p c' Hp Hch IH].
    + exists 1. simpl. now rewrite Hd.
    + destruct (IH Hd) as [fuel Hf]. exists (S fuel). simpl.
      destruct (destroyed (flags c)); auto. now rewrite Hp.
Qed.

Lemma checkDestroyed_false (flags : Flags) (c : Handle) :
  (exists fuel, checkDestroyed fuel flags c = Some false) <->
  (finite_chain c /\ forall c', on_chain c c' -> destroyed (flags c') = false).
Proof.
  split.
  - intros [fuel H]. revert c H. induction fuel as [|fuel IH]; intros c; simpl; [discriminate|].
    destruct (destroyed (flags c)) eqn:Ed; [discriminate|].
    destruct (parentOf c) as [p|] eqn:Ep.
    + intros H. destruct (IH p H) as [Hfin Hall]. split.
      * econstructor 2; eauto.
      * intros c' Hch. inversion Hch; subst; auto.
        rewrite Ep in H0. inversion H0; subst. auto.
    + intros _. split; [now constructor|].
      intros c' Hch. inversion Hch; subst; auto. congruence.
  - intros [Hfin Hall]. induction Hfin as [c Hp|c p Hp Hfin IH].
    + exists 1. simpl. rewrite (Hall c (chain_self c)). now rewrite Hp.
    + destruct IH as [fuel Hf].
      * intros c' Hch. apply Hall. econstructor; eauto.
      * exists (S fuel). simpl. rewrite (Hall c (chain_self c)). now rewrite Hp.
Qed.

(** On a finite chain the walk returns within a number of steps that
    does not depend on the status properties. *)
Lemma checkDestroyed_total (c : Handle) :
  finite_chain c ->
  exists n, forall fuel flags, n <= fuel -> exists b, checkDestroyed fuel flags c = Some b.
Proof.
  induction 1 as [c Hp|c p Hp Hfin [n IH]].
  - exists 1. intros [|fuel] flags Hle; [lia|]. simpl.
    destruct (destroyed (flags c)); eauto. rewrite Hp. eauto.
  - exists (S n). intros [|fuel] flags Hle; [lia|]. simpl.
    destruct (destroyed (flags c)); eauto. rewrite Hp. apply IH. lia.
Qed.

(** C7 (termination of the closed-state walk): when the parent chain of
    a handle ends -- it is finite and has no cycle -- [checkDestroyed]
    returns [true] or [false] after finitely many parent steps, and more
    steps allowed do not change the answer. *)
Theorem checkDestroyed_terminates (flags : Flags) (conn : Handle) :
  finite_chain conn ->
  exists fuel b,
    checkDestroyed fuel flags conn = Some b /\
    forall fuel', fuel <= fuel' -> checkDestroyed fuel' flags conn = Some b.
Proof.
  intros Hfin. destruct (checkDestroyed_total conn Hfin) as [n Hn].
  destruct (Hn n flags (le_n n)) as [b Hb].
  exists n, b. split; auto. intros fuel' Hle. eapply checkDestroyed_mono; eauto.
Qed.

Lemma reportsClosed_mono (fuel fuel' : nat) (flags : Flags) (c : Handle) (b : bool) :
  reportsClosed fuel flags c = Some b -> fuel <= fuel' ->
  reportsClosed fuel' flags c = Some b.
Proof.
  unfold reportsClosed. destruct (closed (flags c)); auto.
  apply checkDestroyed_mono.
Qed.

Lemma reportsClosed_true (flags : Flags) (c : Handle) :
  (exists fuel, reportsClosed fuel flags c = Some true) <-> closed_by_flags flags c.
Proof.
  unfold reportsClosed, closed_by_flags.
  destruct (closed (flags c)).
  - split; [auto|]. intros _. now exists 0.
  - rewrite checkDestroyed_true. split; [auto|]. intros [?|?]; [discriminate|auto].
Qed.

Lemma reportsClosed_total (c : Handle) :
  finite_chain c ->
  exists n, forall fuel flags, n <= fuel -> exists b, reportsClosed fuel flags c = Some b.
Proof.
  intros Hfin. destruct (checkDestroyed_total c Hfin) as [n Hn].
  exists n. intros fuel flags Hle. unfold reportsClosed.
  destruct (closed (flags c)); eauto.
Qed.

(** ** The loops of [destroy()] *)

Lemma destroyEach_app (fuel : nat) (l1 l2 : list Handle) (st : Loop) :
  destroyEach fuel (l1 ++ l2) st =
  match destroyEach fuel l1 st with
  | None => None
  | Some st' => destroyEach fuel l2 st'
  end.
Proof.
  revert st. induction l1 as [|c l1 IH]; intros st; simpl; auto.
  destruct (destroyConnection fuel c st); auto.
Qed.

Lemma firstn_snoc (l : list Handle) (i : nat) (c : Handle) :
  nth_error l i = Some c -> firstn (S i) l = firstn i l ++ [c].
Proof.
  revert i. induction l as [|x l IH]; intros [|i]; simpl; try discriminate.
  - intros H; inversion H; reflexivity.
  - intros H. f_equal. now apply IH.
Qed.

(** The counting loop visits the array from its last element down. *)
Lemma destroyConnections_each (fuel n : nat) (l : list Handle) (st : Loop) :
  n <= List.length l ->
  destroyConnections fuel n l st = destroyEach fuel (rev (firstn n l)) st.
Proof.
  revert st. induction n as [|i IH]; intros st Hle; [reflexivity|].
  cbn [destroyConnections].
  destruct (nth_error l i) as [c|] eqn:E.
  - rewrite (firstn_snoc l i c E), rev_app_distr. simpl.
    destruct (destroyConnection fuel c st); auto. apply IH. lia.
  - apply nth_error_None in E. lia.
Qed.

Lemma destroyKeys_each (fuel : nat) (d : Dict) (st : Loop) :
  destroyKeys fuel d st = destroyEach fuel (visit_order d) st.
Proof.
  revert st. induction d as [|[k l] d IH]; intros st; simpl; auto.
  rewrite destroyEach_app, destroyConnections_each, firstn_all by auto.
  destruct (destroyEach fuel (rev l) st); auto.
Qed.

Lemma destroyConnection_spec (fuel : nat) (c : Handle) (st st' : Loop) :
  destroyConnection fuel c st = Some st' ->
  exists b,
    reportsClosed fuel (l_flags st) c = Some b /\
    l_flags st' = sock_destroy c (l_flags st) /\
    l_calls st' = l_calls st ++ (if b then [] else [CallOnClose c]) ++ [CallDestroy c] /\
    l_waits st' = l_waits st ++ (if b then [] else [c]).
Proof.
  unfold destroyConnection.
  destruct (reportsClosed fuel (l_flags st) c) as [[|]|]; intros H; inversion H; subst;
    [exists true|exists false]; simpl; rewrite ?app_nil_r; auto.
Qed.

Lemma destroy_calls_app (l1 l2 : list Call) :
  destroy_calls (l1 ++ l2) = destroy_calls l1 ++ destroy_calls l2.
Proof. apply flat_map_app. Qed.

Lemma onclose_calls_app (l1 l2 : list Call) :
  onclose_calls (l1 ++ l2) = onclose_calls l1 ++ onclose_calls l2.
Proof. apply flat_map_app. Qed.

Lemma in_destroy_calls (c : Handle) (cs : list Call) :
  In c (destroy_calls cs) <-> In (CallDestroy c) cs.
Proof.
  unfold destroy_calls. rewrite in_flat_map. split.
  - intros ([| |h] & Hin & Hc); simpl in Hc; try contradiction.
    destruct Hc as [->|[]]. auto.
  - intros Hin. exists (CallDestroy c). simpl; auto.
Qed.

Lemma in_onclose_calls (c : Handle) (cs : list Call) :
  In c (onclose_calls cs) <-> In (CallOnClose c) cs.
Proof.
  unfold onclose_calls. rewrite in_flat_map. split.
  - intros ([|h|] & Hin & Hc); simpl in Hc; try contradiction.
    destruct Hc as [->|[]]. auto.
  - intros Hin. exists (CallOnClose c). simpl; auto.
Qed.

(** What a run of the loop body over [cs] leaves behind: the status
    properties after the [destroy()] calls, one [destroy()] call per
    socket in order, and a wait armed exactly for the sockets that did
    not report closed when their turn came. *)
Lemma destroyEach_spec (fuel : nat) (cs : list Handle) (st st' : Loop) :
  destroyEach fuel cs st = Some st' ->
  l_flags st' = flags_when cs (l_flags st) /\
  destroy_calls (l_calls st') = destroy_calls (l_calls st) ++ cs /\
  exists armed,
    onclose_calls (l_calls st') = onclose_calls (l_calls st) ++ armed /\
    l_waits st' = l_waits st ++ armed /\
    (forall c, In c armed ->
       exists pre post, cs = pre ++ c :: post /\
         reportsClosed fuel (flags_when pre (l_flags st)) c = Some false) /\
    (forall pre c post, cs = pre ++ c :: post ->
       reportsClosed fuel (flags_when pre (l_flags st)) c = Some true \/ In c armed).
Proof.
  revert st. induction cs as [|c0 cs IH]; intros st; simpl.
  - intros H; inversion H; subst. rewrite app_nil_r. repeat split; auto.
    exists []. rewrite !app_nil_r. repeat split; auto.
    + intros c [].
    + intros [|? ?] c post Heq; discriminate.
  - destruct (destroyConnection fuel c0 st) as [st1|] eqn:E1; [|discriminate].
    intros H.
    destruct (destroyConnection_spec fuel c0 st st1 E1) as (b & Hb & Hf1 & Hc1 & Hw1).
    destruct (IH st1 H) as (Hf & Hd & armed & Ho & Hw & Harm & Hall).
    rewrite Hf1 in *. rewrite Hc1 in *. rewrite Hw1 in *.
    split; [exact Hf|]. split.
    + rewrite Hd, !destroy_calls_app. destruct b; simpl; now rewrite <- app_assoc.
    + exists ((if b then [] else [c0]) ++ armed). repeat split.
      * rewrite Ho, !onclose_calls_app. destruct b; simpl; now rewrite <- ?app_assoc.
      * rewrite Hw. now rewrite <- app_assoc.
      * intros c Hin. apply in_app_or in Hin as [Hin|Hin].
        -- destruct b; [destruct Hin|]. destruct Hin as [<-|[]].
           now exists [], cs.
        -- destruct (Harm c Hin) as (pre & post & -> & Hr).
           now exists (c0 :: pre), post.
      * intros [|x pre] c post Heq; simpl in *; inversion Heq; subst.
        -- destruct b; [now left|right]. simpl; auto.
        -- destruct (Hall pre c post eq_refl); [now left|right].
           apply in_or_app; auto.
Qed.

Lemma destroyEach_mono (fuel fuel' : nat) (cs : list Handle) (st st' : Loop) :
  destroyEach fuel cs st = Some st' -> fuel <= fuel' ->
  destroyEach fuel' cs st = Some st'.
Proof.
  intros H Hle. revert st H. induction cs as [|c cs IH]; intros st; simpl; auto.
  unfold destroyConnection.
  destruct (reportsClosed fuel (l_flags st) c) as [b|] eqn:E; [|discriminate].
  rewrite (reportsClosed_mono _ _ _ _ _ E Hle). destruct b; apply IH.
Qed.

Lemma destroyEach_total (cs : list Handle) :
  Forall finite_chain cs ->
  exists n, forall fuel st, n <= fuel -> exists st', destroyEach fuel cs st = Some st'.
Proof.
  induction 1 as [|c cs Hc _ [n IH]].
  - exists 0. intros; simpl; eauto.
  - destruct (reportsClosed_total c Hc) as [m Hm].
    exists (Nat.max m n). intros fuel st Hle. simpl. unfold destroyConnection.
    destruct (Hm fuel (l_flags st)) as [b ->]; [lia|].
    destruct b; apply IH; lia.
Qed.

Lemma visit_order_In (c : Handle) (d : Dict) :
  In c (visit_order d) <-> In c (tracked d).
Proof.
  unfold visit_order. rewrite in_flat_map, tracked_In. split.
  - intros ([k l] & Hin & Hc). exists k, l. split; auto. now apply in_rev.
  - intros (k & l & Hin & Hc). exists (k, l). split; auto. simpl. now apply in_rev in Hc.
Qed.

Lemma waits_microtasks (r : Run) : waits (microtasks r) = waits r.
Proof. destruct r as [[|w ws] [| |] o]; reflexivity. Qed.

Lemma outcome_microtasks (r : Run) : outcome (microtasks r) = outcome r.
Proof. destruct r as [[|w ws] [| |] o]; reflexivity. Qed.

(** [destroy()] returns when every tracked socket has a parent chain
    that ends. *)
Lemma destroy_total (flags : Flags) (d : Dict) :
  Forall finite_chain (tracked d) ->
  exists fuel res, destroy fuel flags d = Some res.
Proof.
  intros Hfin.
  assert (Hv : Forall finite_chain (visit_order d)).
  { apply Forall_forall. intros c Hc. apply visit_order_In in Hc.
    revert c Hc. now apply Forall_forall. }
  destruct (destroyEach_total _ Hv) as [n Hn].
  unfold destroy. exists n. rewrite destroyKeys_each.
  destruct (Hn n {| l_flags := flags; l_calls := [CallServerClose]; l_waits := [] |} (le_n n))
    as [st' ->]. eauto.
Qed.

Lemma destroy_mono (fuel fuel' : nat) (flags : Flags) (d : Dict) (res : Destroyed) :
  destroy fuel flags d = Some res -> fuel <= fuel' -> destroy fuel' flags d = Some res.
Proof.
  unfold destroy. rewrite !destroyKeys_each.
  destruct (destroyEach fuel _ _) as [st|] eqn:E; [|discriminate].
  intros H Hle. now rewrite (destroyEach_mono _ _ _ _ _ E Hle).
Qed.

(** The result of [destroy()]: [server.close] is called first, then
    each socket is destroyed once, in visiting order; the promise is
    pending and waits for the 'close' of exactly the sockets that did
    not report closed when their turn came. *)
Lemma destroy_spec (fuel : nat) (flags : Flags) (d : Dict) (res : Destroyed) :
  destroy fuel flags d = Some res ->
  destroy_calls (calls res) = visit_order d /\
  onclose_calls (calls res) = waits (promise res) /\
  flags_after res = flags_when (visit_order d) flags /\
  outcome (promise res) = Pending /\
  (phase (promise res) = ImmediateRan -> False) /\
  (phase (promise res) = ImmediateQueued -> waits (promise res) = []) /\
  (forall c, In c (waits (promise res)) ->
     exists pre post, visit_order d = pre ++ c :: post /\
       reportsClosed fuel (flags_when pre flags) c = Some false) /\
  (forall pre c post, visit_order d = pre ++ c :: post ->
     reportsClosed fuel (flags_when pre flags) c = Some true \/
     In c (waits (promise res))).
Proof.
  unfold destroy. rewrite destroyKeys_each.
  destruct (destroyEach fuel _ _) as [st|] eqn:E; [|discriminate].
  intros H; inversion H; subst; clear H. simpl.
  destruct (destroyEach_spec _ _ _ _ E) as (Hf & Hd & armed & Ho & Hw & Harm & Hall).
  simpl in *. rewrite waits_microtasks, outcome_microtasks. simpl.
  rewrite Hw in *. clear Hw.
  repeat split; auto.
  - unfold microtasks; simpl. destruct armed; discriminate.
  - unfold microtasks; simpl. destruct armed; [reflexivity|discriminate].
Qed.

(** ** Order within an array *)

Lemma before_split (a b : Handle) (l : list Handle) :
  before a b l <-> exists l1 l2 l3, l = l1 ++ a :: l2 ++ b :: l3.
Proof.
  split.
  - induction l as [|x l IH]; simpl; [intros []|].
    intros [[-> Hin]|H].
    + apply in_split in Hin as (l2 & l3 & ->). now exists [], l2, l3.
    + destruct (IH H) as (l1 & l2 & l3 & ->). now exists (x :: l1), l2, l3.
  - intros (l1 & l2 & l3 & ->). induction l1 as [|x l1 IH]; simpl; auto.
    left. split; auto. apply in_or_app. simpl; auto.
Qed.

Lemma before_app_l (a b : Handle) (l l' : list Handle) :
  before a b l -> before a b (l ++ l').
Proof.
  rewrite !before_split. intros (l1 & l2 & l3 & ->).
  exists l1, l2, (l3 ++ l'). now rewrite <- !app_assoc, <- !app_comm_cons, <- app_assoc.
Qed.

Lemma before_app_r (a b : Handle) (l l' : list Handle) :
  before a b l -> before a b (l' ++ l).
Proof.
  rewrite !before_split. intros (l1 & l2 & l3 & ->).
  exists (l' ++ l1), l2, l3. now rewrite <- app_assoc.
Qed.

Lemma before_snoc (a b : Handle) (l : list Handle) :
  In a l -> before a b (l ++ [b]).
Proof.
  intros Hin. apply in_split in Hin as (l1 & l2 & ->).
  apply before_split. exists l1, l2, []. now rewrite <- app_assoc.
Qed.

Lemma before_rev (a b : Handle) (l : list Handle) :
  before a b l -> before b a (rev l).
Proof.
  rewrite !before_split. intros (l1 & l2 & l3 & ->).
  exists (rev l3), (rev l2), (rev l1).
  rewrite rev_app_distr. simpl. rewrite rev_app_distr. simpl.
  now rewrite <- !app_assoc.
Qed.

Lemma before_visit_order (a b : Handle) (k : string) (l : list Handle) (d : Dict) :
  In (k, l) d -> before a b l -> before b a (visit_order d).
Proof.
  intros Hin Hb. apply in_split in Hin as (d1 & d2 & ->).
  unfold visit_order. rewrite flat_map_app. simpl.
  apply before_app_r, before_app_l. now apply before_rev.
Qed.

Lemma before_splice1 (a b c : Handle) (i : nat) (l : list Handle) :
  nth_error l i = Some c -> c <> a -> c <> b ->
  before a b l -> before a b (splice1 i l).
Proof.
  revert i. induction l as [|x l IH]; intros [|i]; simpl; try discriminate.
  - intros H Ha Hb [[-> _]|Hbef]; [inversion H; congruence|auto].
  - intros H Ha Hb [[-> Hin]|Hbef].
    + left. split; auto. eapply splice1_In_other; eauto.
    + right. eauto.
Qed.

(** ** Order and membership under registry operations *)

Lemma conns_of_removeConnection_key (k k' : string) (c : Handle) (d : Dict) :
  k' <> k -> conns_of k' (removeConnection k c d) = conns_of k' d.
Proof.
  intros Hne.
  destruct (removeConnection_cases k c d)
    as [[-> _]|[[_ ->]|(l & i & _ & _ & _ & ->)]]; auto; unfold conns_of.
  - now rewrite dict_get_delete_other.
  - now rewrite dict_get_set_other.
Qed.

Lemma apply_op_keeps_member (key : string) (a : Handle) (op : RegOp) (d : Dict) :
  op <> Unregister key a ->
  In a (conns_of key d) -> In a (conns_of key (apply_op d op)).
Proof.
  intros Hop Hin. destruct op as [k c|k c]; simpl.
  - rewrite conns_of_addConnection. destruct (String.eqb_spec k key); subst; auto.
    apply in_or_app; auto.
  - destruct (String.eqb_spec key k) as [->|Hk].
    2:{ now rewrite conns_of_removeConnection_key. }
    assert (Hc : a <> c) by congruence.
    apply (count_occ_In Nat.eq_dec).
    rewrite conns_of_removeConnection_other by auto.
    now apply (count_occ_In Nat.eq_dec).
Qed.

Lemma apply_op_keeps_order (key : string) (a b : Handle) (op : RegOp) (d : Dict) :
  op <> Unregister key a -> op <> Unregister key b ->
  before a b (conns_of key d) -> before a b (conns_of key (apply_op d op)).
Proof.
  intros Ha Hb Hbef. destruct op as [k c|k c]; simpl.
  - rewrite conns_of_addConnection. destruct (String.eqb_spec k key); subst; auto.
    now apply before_app_l.
  - destruct (String.eqb_spec key k) as [->|Hk].
    2:{ now rewrite conns_of_removeConnection_key. }
    destruct (removeConnection_cases k c d)
      as [[-> _]|[[E _]|(l & i & E & Hn & _ & ->)]]; auto.
    + unfold conns_of in Hbef. rewrite E in Hbef. simpl in Hbef.
      destruct Hbef as [[_ []]|[]].
    + unfold conns_of in *. rewrite E in Hbef. rewrite dict_get_set_same.
      apply (before_splice1 a b c i l Hn); auto; congruence.
Qed.

Lemma apply_ops_keeps_member (key : string) (a : Handle) (ops : list RegOp) (d : Dict) :
  ~ In (Unregister key a) ops ->
  In a (conns_of key d) -> In a (conns_of key (apply_ops ops d)).
Proof.
  revert d. induction ops as [|op ops IH]; intros d Hno Hin; simpl; auto.
  apply IH; [intros Hu; apply Hno; simpl; auto|].
  apply apply_op_keeps_member; auto. intros ->. apply Hno. simpl; auto.
Qed.

Lemma apply_ops_keeps_order (key : string) (a b : Handle) (ops : list RegOp) (d : Dict) :
  ~ In (Unregister key a) ops -> ~ In (Unregister key b) ops ->
  before a b (conns_of key d) -> before a b (conns_of key (apply_ops ops d)).
Proof.
  revert d. induction ops as [|op ops IH]; intros d Ha Hb Hbef; simpl; auto.
  apply IH; [intros Hu; apply Ha; simpl; auto|intros Hu; apply Hb; simpl; auto|].
  apply apply_op_keeps_order; auto; intros ->; [apply Ha|apply Hb]; simpl; auto.
Qed.

Lemma conns_of_In (key : string) (c : Handle) (d : Dict) :
  In c (conns_of key d) -> In (key, conns_of key d) d.
Proof.
  unfold conns_of. destruct (dict_get key d) eqn:E; [|intros []].
  intros _. now apply dict_get_In.
Qed.

(** C2 (P3, reverse order): let [A] and then [B] be registered under
    the same key, neither being unregistered afterwards, whatever other
    registry operations happen before, between and after.  Then
    [destroy()] returns (the parent chains of the tracked sockets being
    finite) and calls [destroy()] on [B] before it calls it on [A]. *)
Theorem destroy_reverse_registration_order
  (flags : Flags) (d0 : Dict) (key : string) (A B : Handle)
  (ops0 ops1 ops2 : list RegOp) :
  let d :=
    apply_ops (ops0 ++ Register key A :: ops1 ++ Register key B :: ops2) d0 in
  ~ In (Unregister key A) (ops1 ++ ops2) ->
  ~ In (Unregister key B) ops2 ->
  Forall finite_chain (tracked d) ->
  destroy_returns flags d (fun res =>
    exists t1 t2 t3, destroy_calls (calls res) = t1 ++ B :: t2 ++ A :: t3).
Proof.
  intros d HA HB Hfin.
  assert (Hbef : before A B (conns_of key d)).
  { subst d. unfold apply_ops. rewrite fold_left_app. simpl.
    rewrite fold_left_app. simpl.
    apply apply_ops_keeps_order; auto.
    - intros Hin. apply HA. apply in_or_app; auto.
    - rewrite conns_of_addConnection, String.eqb_refl.
      apply before_snoc. apply apply_ops_keeps_member.
      + intros Hin. apply HA. apply in_or_app; auto.
      + rewrite conns_of_addConnection, String.eqb_refl.
        apply in_or_app; simpl; auto. }
  split; [now apply destroy_total|].
  intros fuel res Hres.
  destruct (destroy_spec _ _ _ _ Hres) as (-> & _).
  apply before_split.
  apply (before_visit_order A B key (conns_of key d)); auto.
  apply conns_of_In with (c := A).
  apply before_split in Hbef as (l1 & l2 & l3 & ->).
  apply in_or_app. simpl; auto.
Qed.

(** ** Duplicate keys *)

Lemma fireClose_other (c x : Handle) (k : string) (ls : list (Handle * string)) (d : Dict) :
  x <> c ->
  count_occ Nat.eq_dec (conns_of k (fireClose c ls d)) x =
  count_occ Nat.eq_dec (conns_of k d) x.
Proof.
  intros Hne. revert d. induction ls as [|[c0 k0] ls IH]; intros d; simpl; auto.
  unfold fireClose in *. rewrite IH. simpl.
  destruct (Nat.eqb_spec c0 c) as [->|Hc]; auto.
  apply conns_of_removeConnection_other. now right.
Qed.

Lemma fireClose_keeps_order (key : string) (a b c : Handle)
  (ls : list (Handle * string)) (d : Dict) :
  c <> a -> c <> b ->
  before a b (conns_of key d) -> before a b (conns_of key (fireClose c ls d)).
Proof.
  intros Ha Hb. revert d. induction ls as [|[c0 k0] ls IH]; intros d Hbef; simpl; auto.
  apply IH. simpl. destruct (Nat.eqb_spec c0 c) as [->|Hne]; auto.
  apply (apply_op_keeps_order key a b (Unregister k0 c)); auto; congruence.
Qed.

Lemma track_keeps_member (key : string) (a : Handle) (ev : Event) (t : Tracker) :
  ev <> EvSockClose a ->
  In a (conns_of key (connectionDict t)) ->
  In a (conns_of key (connectionDict (track t ev))).
Proof.
  intros Hev Hin. destruct ev as [s c x p|c|e|]; simpl; auto.
  - apply (apply_op_keeps_member key a (Register (registryKey x p) c)); auto.
    discriminate.
  - apply (count_occ_In Nat.eq_dec). rewrite fireClose_other by congruence.
    now apply (count_occ_In Nat.eq_dec).
Qed.

Lemma track_keeps_order (key : string) (a b : Handle) (ev : Event) (t : Tracker) :
  ev <> EvSockClose a -> ev <> EvSockClose b ->
  before a b (conns_of key (connectionDict t)) ->
  before a b (conns_of key (connectionDict (track t ev))).
Proof.
  intros Ha Hb Hbef. destruct ev as [s c x p|c|e|]; simpl; auto.
  - apply (apply_op_keeps_order key a b (Register (registryKey x p) c)); auto;
      discriminate.
  - apply fireClose_keeps_order; auto; congruence.
Qed.

Lemma track_all_keeps_member (key : string) (a : Handle) (evs : list Event) (t : Tracker) :
  ~ In (EvSockClose a) evs ->
  In a (conns_of key (connectionDict t)) ->
  In a (conns_of key (connectionDict (track_all evs t))).
Proof.
  revert t. induction evs as [|ev evs IH]; intros t Hno Hin; simpl; auto.
  apply IH; [intros Hu; apply Hno; simpl; auto|].
  apply track_keeps_member; auto. intros ->. apply Hno. simpl; auto.
Qed.

Lemma track_all_keeps_order (key : string) (a b : Handle) (evs : list Event) (t : Tracker) :
  ~ In (EvSockClose a) evs -> ~ In (EvSockClose b) evs ->
  before a b (conns_of key (connectionDict t)) ->
  before a b (conns_of key (connectionDict (track_all evs t))).
Proof.
  revert t. induction evs as [|ev evs IH]; intros t Ha Hb Hbef; simpl; auto.
  apply IH; [intros Hu; apply Ha; simpl; auto|intros Hu; apply Hb; simpl; auto|].
  apply track_keeps_order; auto; intros ->; [apply Ha|apply Hb]; simpl; auto.
Qed.

Lemma track_all_app (evs1 evs2 : list Event) (t : Tracker) :
  track_all (evs1 ++ evs2) t = track_all evs2 (track_all evs1 t).
Proof. apply fold_left_app. Qed.

(** C8 (P2, duplicate keys): let two connections be accepted with the
    same remote address and port (through either event), neither having
    emitted 'close' since, whatever else happens before, between and
    after.  Then the array of their common key holds two entries, one
    for each; the 'close' of one leaves the other where it is; and
    [destroy()] returns (the parent chains of the tracked sockets being
    finite) having called [destroy()] on both. *)
Theorem duplicate_keys_both_tracked_and_destroyed
  (flags : Flags) (t : Tracker) (s1 s2 : bool) (c1 c2 : Handle)
  (a : option string) (p : option N) (mid after : list Event) :
  ~ In (EvSockClose c1) (mid ++ after) ->
  ~ In (EvSockClose c2) after ->
  let key := registryKey a p in
  let t' := track_all (EvAccept s1 c1 a p :: mid ++ EvAccept s2 c2 a p :: after) t in
  (exists l1 l2 l3,
     conns_of key (connectionDict t') = l1 ++ c1 :: l2 ++ c2 :: l3) /\
  (c1 <> c2 ->
   In c2 (conns_of key (connectionDict (track t' (EvSockClose c1)))) /\
   In c1 (conns_of key (connectionDict (track t' (EvSockClose c2))))) /\
  (Forall finite_chain (tracked (connectionDict t')) ->
   destroy_returns flags (connectionDict t') (fun res =>
     In (CallDestroy c1) (calls res) /\ In (CallDestroy c2) (calls res))).
Proof.
  intros H1 H2 key t'.
  assert (Hbef : before c1 c2 (conns_of key (connectionDict t'))).
  { subst t'. simpl. rewrite track_all_app. simpl.
    apply track_all_keeps_order; auto.
    - intros Hin. apply H1. apply in_or_app; auto.
    - simpl. rewrite conns_of_addConnection. subst key. rewrite String.eqb_refl.
      apply before_snoc. apply track_all_keeps_member.
      + intros Hin. apply H1. apply in_or_app; auto.
      + simpl. rewrite conns_of_addConnection, String.eqb_refl.
        apply in_or_app; simpl; auto. }
  assert (Hboth : forall c, c = c1 \/ c = c2 -> In c (conns_of key (connectionDict t'))).
  { apply before_split in Hbef as (l1 & l2 & l3 & Heq). rewrite Heq.
    intros c [-> | ->]; apply in_or_app; right; simpl; auto.
    right. apply in_or_app; right; simpl; auto. }
  split; [now apply before_split|]. split.
  - intros Hne. split; apply (count_occ_In Nat.eq_dec); simpl;
      rewrite fireClose_other by congruence;
      apply (count_occ_In Nat.eq_dec); apply Hboth; auto.
  - intros Hfin. split; [now apply destroy_total|].
    intros fuel res Hres.
    destruct (destroy_spec _ _ _ _ Hres) as (Hcalls & _).
    split; apply in_destroy_calls; rewrite Hcalls; apply visit_order_In, tracked_In;
      exists key, (conns_of key (connectionDict t'));
      (split; [eapply conns_of_In|]); apply Hboth; auto.
Qed.

(** ** Sockets that already report closed *)

Lemma flags_when_latch (pre : list Handle) (flags : Flags) (h : Handle) :
  latching ->
  (closed (flags h) = true -> closed (flags_when pre flags h) = true) /\
  (destroyed (flags h) = true -> destroyed (flags_when pre flags h) = true).
Proof.
  intros Hl. revert flags. induction pre as [|c pre IH]; intros flags; simpl; auto.
  destruct (Hl c flags h) as [Hc Hd]. destruct (IH (sock_destroy c flags)) as [Hc' Hd'].
  split; auto.
Qed.

Lemma closed_by_flags_latch (pre : list Handle) (flags : Flags) (c : Handle) :
  latching -> closed_by_flags flags c -> closed_by_flags (flags_when pre flags) c.
Proof.
  intros Hl [Hc|(c' & Hch & Hd)].
  - left. now apply flags_when_latch.
  - right. exists c'. split; auto. now apply flags_when_latch.
Qed.

(** C6 (closed-state detection; P7, pre-closed handle): [checkDestroyed]
    returns [true] exactly when [destroyed] is set on the handle or on
    one of its ancestors, and the test [conn.closed || checkDestroyed(conn)]
    of [destroy()] succeeds exactly when, besides, the handle's own
    [closed] may be set.  [destroy()] attaches a 'close' listener, and
    makes its promise wait, only for a handle that fails this test when
    its turn comes.  Consequently (status properties being latches) for
    a handle that reports closed when [destroy()] is called, [destroy()]
    returns having called [conn.destroy()] on it if it is tracked,
    without attaching a 'close' listener to it, and its promise does not
    wait for it. *)
Theorem closed_state_detection (flags : Flags) (conn : Handle) :
  ((exists fuel, checkDestroyed fuel flags conn = Some true) <->
   (exists c', on_chain conn c' /\ destroyed (flags c') = true)) /\
  ((exists fuel, reportsClosed fuel flags conn = Some true) <->
   closed_by_flags flags conn) /\
  (forall d fuel res, destroy fuel flags d = Some res ->
     (In (CallOnClose conn) (calls res) <-> In conn (waits (promise res))) /\
     (In conn (waits (promise res)) ->
      exists pre post,
        visit_order d = pre ++ conn :: post /\
        reportsClosed fuel (flags_when pre flags) conn = Some false)) /\
  (latching -> closed_by_flags flags conn ->
   forall d, Forall finite_chain (tracked d) ->
     destroy_returns flags d (fun res =>
       (In (CallDestroy conn) (calls res) <-> In conn (tracked d)) /\
       ~ In (CallOnClose conn) (calls res) /\
       ~ In conn (waits (promise res)))).
Proof.
  split; [apply checkDestroyed_true|]. split; [apply reportsClosed_true|]. split.
  - intros d fuel res Hres.
    destruct (destroy_spec _ _ _ _ Hres) as (_ & Hon & _ & _ & _ & _ & Hw & _).
    split; [now rewrite <- in_onclose_calls, Hon|]. apply Hw.
  - intros Hl Hclosed d Hfin. split; [now apply destroy_total|].
    intros fuel res Hres.
    destruct (destroy_spec _ _ _ _ Hres) as (Hcalls & Hon & _ & _ & _ & _ & Hw & _).
    assert (Hno : ~ In conn (waits (promise res))).
    { intros Hin. destruct (Hw conn Hin) as (pre & post & _ & Hr).
      pose proof (closed_by_flags_latch pre flags conn Hl Hclosed) as Hc.
      apply reportsClosed_true in Hc as [fuel' Hr'].
      pose proof (reportsClosed_mono _ _ _ _ _ Hr (Nat.le_max_l fuel fuel')) as H1.
      pose proof (reportsClosed_mono _ _ _ _ _ Hr' (Nat.le_max_r fuel fuel')) as H2.
      congruence. }
    split; [|split]; auto.
    + now rewrite <- in_destroy_calls, Hcalls, visit_order_In.
    + now rewrite <- in_onclose_calls, Hon.
Qed.

(** ** The promise of [destroy()] under events *)

Lemma run_events_app (evs1 evs2 : list Event) (r : Run) :
  run_events (evs1 ++ evs2) r = run_events evs2 (run_events evs1 r).
Proof. apply fold_left_app. Qed.

Lemma run_step_settled (r : Run) (ev : Event) :
  outcome r <> Pending -> outcome (run_step r ev) = outcome r.
Proof.
  intros Hs. unfold run_step. rewrite outcome_microtasks.
  destruct r as [w ph o]; simpl in *.
  destruct ev as [s c a p|c|[e|]|]; simpl; auto;
    destruct o; try congruence; destruct ph; reflexivity.
Qed.

(** A settled promise stays as it is. *)
Lemma run_events_settled (evs : list Event) (r : Run) :
  outcome r <> Pending -> outcome (run_events evs r) = outcome r.
Proof.
  revert r. induction evs as [|ev evs IH]; intros r Hs; simpl; auto.
  rewrite IH; rewrite run_step_settled; auto.
Qed.

Lemma microtasks_not_yet (r : Run) : not_yet r -> not_yet (microtasks r).
Proof.
  destruct r as [[|w ws] [| |] o]; unfold not_yet; simpl;
    intros (H1 & H2 & H3); (split; [|split]); auto; discriminate.
Qed.

(** Any event but the check phase that runs the queued immediate keeps
    the promise unfulfilled, and only a 'close' takes a wait away. *)
Lemma run_step_not_yet (r : Run) (ev : Event) :
  not_yet r ->
  (ev = EvImmediate /\ phase r = ImmediateQueued /\ waits r = []) \/
  (not_yet (run_step r ev) /\
   forall h, In h (waits r) -> ev = EvSockClose h \/ In h (waits (run_step r ev))).
Proof.
  intros Hn. pose proof Hn as (Hph & Hq & Ho).
  destruct ev as [s c a p|c|[e|]|]; unfold run_step.
  - right. split; [now apply microtasks_not_yet|].
    intros h Hh. rewrite waits_microtasks. auto.
  - right. split.
    + apply microtasks_not_yet. unfold not_yet; simpl. repeat split; auto.
      intros Hqq. rewrite (Hq Hqq). reflexivity.
    + intros h Hh. rewrite waits_microtasks. simpl.
      destruct (Nat.eq_dec h c) as [->|Hne]; [now left|right].
      apply filter_In. split; auto. now apply negb_true_iff, Nat.eqb_neq.
  - right. split.
    + apply microtasks_not_yet. unfold not_yet, reject in *.
      destruct r as [w ph o]; simpl in *.
      destruct o; simpl; repeat split; auto; congruence.
    + intros h Hh. rewrite waits_microtasks. unfold reject.
      destruct (outcome r); simpl; auto.
  - right. split; [now apply microtasks_not_yet|].
    intros h Hh. rewrite waits_microtasks. auto.
  - destruct (phase r) eqn:Eph.
    + right. split; [now apply microtasks_not_yet|].
      intros h Hh. rewrite waits_microtasks. auto.
    + left. auto.
    + congruence.
Qed.

(** A fulfilled promise has seen the check phase, and before it the
    'close' of every socket it was waiting for. *)
Lemma fulfilled_after_closes (evs : list Event) (r : Run) :
  not_yet r ->
  outcome (run_events evs r) = Fulfilled ->
  exists evs1 evs2,
    evs = evs1 ++ EvImmediate :: evs2 /\
    forall h, In h (waits r) -> In (EvSockClose h) evs1.
Proof.
  revert r. induction evs as [|ev evs IH]; intros r Hn Hf; simpl in *.
  - destruct Hn as (_ & _ & Ho). congruence.
  - destruct (run_step_not_yet r ev Hn) as [(-> & _ & Hw)|[Hn1 Hw]].
    + exists [], evs. split; auto. rewrite Hw. intros h [].
    + destruct (IH _ Hn1 Hf) as (evs1 & evs2 & -> & Hcl).
      exists (ev :: evs1), evs2. split; auto.
      intros h Hh. destruct (Hw h Hh) as [->|Hin]; simpl; auto.
Qed.

(** C1 as the code has it (P5 without the server-close callback): when
    the promise of [destroy()] is fulfilled, the check phase that ran
    its [setImmediate] callback has come, and before it, for every
    tracked socket, either its 'close' event, or else the socket
    reported closed (by its [closed], or by [destroyed] along its parent
    chain) each time its turn came in [destroy()]. *)
Theorem destroy_resolves_after_all_closed
  (fuel : nat) (flags : Flags) (d : Dict) (res : Destroyed) (evs : list Event) :
  destroy fuel flags d = Some res ->
  outcome (run_events evs (promise res)) = Fulfilled ->
  exists evs1 evs2,
    evs = evs1 ++ EvImmediate :: evs2 /\
    forall c, In c (tracked d) ->
      In (EvSockClose c) evs1 \/
      (forall pre post, visit_order d = pre ++ c :: post ->
         reportsClosed fuel (flags_when pre flags) c = Some true).
Proof.
  intros Hres Hf.
  destruct (destroy_spec _ _ _ _ Hres) as (_ & _ & _ & Ho & Hph & Hq & _ & Hall).
  assert (Hn : not_yet (promise res)).
  { unfold not_yet. repeat split; auto. congruence. }
  destruct (fulfilled_after_closes evs _ Hn Hf) as (evs1 & evs2 & -> & Hcl).
  exists evs1, evs2. split; auto.
  intros c _. destruct (in_dec Nat.eq_dec c (waits (promise res))) as [Hin|Hout].
  - left. auto.
  - right. intros pre post Hsplit.
    destruct (Hall pre c post Hsplit); [assumption|contradiction].
Qed.

(** C4 as the code has it (P6 for a promise still pending): an error
    reported by the server-close callback while the promise is pending
    rejects it with exactly that error, whatever 'close' events come
    before or after; and the promise is pending as long as no check
    phase has run and no earlier error was reported. *)
Theorem server_close_error_rejects_pending
  (fuel : nat) (flags : Flags) (d : Dict) (res : Destroyed)
  (evs1 evs2 : list Event) (err : Err) :
  destroy fuel flags d = Some res ->
  (outcome (run_events evs1 (promise res)) = Pending ->
   outcome (run_events (evs1 ++ EvServerClosed (Some err) :: evs2) (promise res))
   = Rejected err) /\
  ((forall ev, In ev evs1 ->
      ev <> EvImmediate /\ forall e, ev <> EvServerClosed (Some e)) ->
   outcome (run_events evs1 (promise res)) = Pending).
Proof.
  intros Hres.
  destruct (destroy_spec _ _ _ _ Hres) as (_ & _ & _ & Ho & _).
  split.
  - intros Hp. rewrite run_events_app. simpl.
    rewrite run_events_settled.
    + unfold run_step. rewrite outcome_microtasks. unfold reject. now rewrite Hp.
    + unfold run_step. rewrite outcome_microtasks. unfold reject. rewrite Hp.
      simpl. discriminate.
  - generalize (promise res) Ho. clear.
    induction evs1 as [|ev evs IH]; intros r Ho Hev; simpl; auto.
    apply IH.
    + destruct (Hev ev (or_introl eq_refl)) as [Hi He].
      unfold run_step. rewrite outcome_microtasks.
      destruct ev as [s c a p|c|[e|]|]; simpl; auto; [|congruence].
      exfalso. now apply (He e).
    + intros ev' Hin. apply Hev. simpl; auto.
Qed.

(** ** The historical variant against the current one *)

Lemma dict_get_lift (k : string) (d : dict Handle) :
  dict_get k (lift d) = option_map (fun c => [c]) (dict_get k d).
Proof.
  induction d as [|[k0 c0] d IH]; simpl; auto.
  destruct (String.eqb k0 k); auto.
Qed.

Lemma lift_delete (k : string) (d : dict Handle) :
  dict_delete k (lift d) = lift (dict_delete k d).
Proof.
  induction d as [|[k0 c0] d IH]; simpl; auto.
  destruct (String.eqb k0 k); simpl; auto. now rewrite IH.
Qed.

Lemma tracked_lift (d : dict Handle) : tracked (lift d) = Historical.tracked d.
Proof.
  induction d as [|[k c] d IH]; simpl; auto.
  unfold lift. simpl. rewrite tracked_cons. simpl. f_equal. exact IH.
Qed.

Lemma visit_order_lift (d : dict Handle) : visit_order (lift d) = Historical.tracked d.
Proof.
  induction d as [|[k c] d IH]; simpl; auto. f_equal. exact IH.
Qed.

Lemma historical_destroy_calls (d : dict Handle) :
  destroy_calls (Historical.destroy d) = Historical.tracked d.
Proof.
  unfold Historical.destroy. simpl.
  induction d as [|[k c] d IH]; simpl; auto. f_equal. exact IH.
Qed.

Lemma listeners_key_inj (ls : list (Handle * string)) (k : string) (a b : Handle) :
  NoDup (map snd ls) -> In (a, k) ls -> In (b, k) ls -> a = b.
Proof.
  induction ls as [|[c0 k0] ls IH]; simpl; [intros _ []|].
  intros Hnd Ha Hb. inversion Hnd as [|x xs Hx Hnd']; subst.
  assert (Hk : forall c, In (c, k0) ls -> False).
  { intros c Hin. apply Hx. change k0 with (snd (c, k0)). now apply in_map. }
  destruct Ha as [Ha|Ha], Hb as [Hb|Hb].
  - congruence.
  - inversion Ha; subst. exfalso; eauto.
  - inversion Hb; subst. exfalso; eauto.
  - auto.
Qed.

(** With one socket per key, [removeConnection] is [delete]. *)
Lemma removeConnection_lift (k : string) (c : Handle) (d : dict Handle) :
  (forall c', dict_get k d = Some c' -> c' = c) ->
  removeConnection k c (lift d) = lift (dict_delete k d).
Proof.
  intros Hc. unfold removeConnection. rewrite dict_get_lift.
  destruct (dict_get k d) as [c'|] eqn:E; simpl.
  - rewrite (Hc c' eq_refl), Nat.eqb_refl. simpl. apply lift_delete.
  - now rewrite dict_delete_absent.
Qed.

Lemma fireClose_lift (c : Handle) (ls all : list (Handle * string)) (d : dict Handle) :
  NoDup (map snd all) ->
  incl ls all ->
  (forall k c', In (k, c') d -> In (c', k) all) ->
  fireClose c ls (lift d) = lift (Historical.fireClose c ls d) /\
  (forall k c', In (k, c') (Historical.fireClose c ls d) -> In (k, c') d).
Proof.
  intros Hnd. revert d. induction ls as [|[c0 k0] ls IH]; intros d Hincl Hd; simpl; auto.
  assert (Hincl' : incl ls all) by (intros x Hx; apply Hincl; simpl; auto).
  destruct (Nat.eqb_spec c0 c) as [->|Hne].
  - rewrite removeConnection_lift.
    + destruct (IH (dict_delete k0 d) Hincl') as [Heq Hsub].
      * intros k c' Hin. apply Hd. eapply dict_delete_In; eauto.
      * split; [exact Heq|]. intros k c' Hin. eapply dict_delete_In; eauto.
    + intros c' Hget. apply (listeners_key_inj all k0); auto.
      * apply Hd. now apply dict_get_In.
      * apply Hincl. simpl; auto.
  - apply IH; auto.
Qed.

Lemma accept_agree (h : Historical.Tracker) (t : Tracker)
  (c : Handle) (a : option string) (p : option N) :
  agree h t ->
  ~ In (registryKey a p) (map snd (closeListeners t)) ->
  agree (Historical.onConnection c a p h) (onConnection c a p t).
Proof.
  intros (Hd & Hl & Hnd & Hsub) Hfresh.
  assert (Hnone : dict_get (registryKey a p) (Historical.connections h) = None).
  { destruct (dict_get _ _) as [c'|] eqn:E; auto.
    exfalso. apply Hfresh. apply dict_get_In, Hsub in E.
    change (registryKey a p) with (snd (c', registryKey a p)). now apply in_map. }
  unfold agree, Historical.onConnection, onConnection; simpl.
  split; [|split; [|split]].
  - rewrite Hd. unfold addConnection. rewrite dict_get_lift, Hnone. simpl.
    rewrite !dict_set_new; auto.
    + unfold lift. now rewrite map_app.
    + now rewrite dict_get_lift, Hnone.
  - now rewrite Hl.
  - rewrite map_app. simpl. apply NoDup_app; repeat split; auto.
    + constructor; [intros []|constructor].
    + intros x Hx [<-|[]]. auto.
  - intros k c' Hin. rewrite dict_set_new in Hin by auto.
    apply in_app_or in Hin as [Hin|[Heq|[]]]; apply in_or_app.
    + left. auto.
    + right. inversion Heq; subst. simpl; auto.
Qed.

Lemma close_agree (h : Historical.Tracker) (t : Tracker) (c : Handle) :
  agree h t -> agree (Historical.onClose c h) (onClose c t).
Proof.
  intros (Hd & Hl & Hnd & Hsub).
  destruct (fireClose_lift c (closeListeners t) (closeListeners t)
              (Historical.connections h) Hnd (incl_refl _) Hsub) as [Heq Hin].
  unfold agree, Historical.onClose, onClose; simpl.
  split; [|split; [|split]]; auto.
  - rewrite Hd, Heq. now rewrite Hl.
  - intros k c' H. apply Hsub, Hin. now rewrite Hl.
Qed.

Lemma track_all_agree (evs : list Event) (h : Historical.Tracker) (t : Tracker) :
  agree h t ->
  NoDup (map snd (closeListeners t) ++ accepted_keys evs) ->
  agree (Historical.track_all evs h) (track_all evs t).
Proof.
  revert h t. induction evs as [|ev evs IH]; intros h t Hag Hnd; simpl; auto.
  destruct ev as [s c a p|c|e|]; simpl in *; try (apply IH; now auto).
  - apply IH.
    + apply accept_agree; auto.
      intros Hin. apply NoDup_remove_2 in Hnd. apply Hnd, in_or_app. auto.
    + simpl. rewrite map_app, <- app_assoc. exact Hnd.
  - apply IH; [now apply close_agree|exact Hnd].
Qed.

Lemma makeDestroyable_agree : agree Historical.makeDestroyable makeDestroyable.
Proof.
  unfold agree; simpl. split; [|split; [|split]]; auto. constructor.
Qed.

Lemma accepted_keys_app (evs1 evs2 : list Event) :
  accepted_keys (evs1 ++ evs2) = accepted_keys evs1 ++ accepted_keys evs2.
Proof. apply flat_map_app. Qed.

(** C10 (the two variants agree when keys are distinct): take any
    sequence of events whose accepted connections have pairwise
    distinct registry keys, and stop it at any point.  The historical
    one-socket-per-key tracker and the current one then hold the same
    sockets (in the same order), and the current [destroy()] returns
    (the parent chains of the tracked sockets being finite) having
    called [destroy()] on the same sockets as the historical one. *)
Theorem variants_agree_on_distinct_keys (flags : Flags) (pre post : list Event) :
  NoDup (accepted_keys (pre ++ post)) ->
  let h := Historical.track_all pre Historical.makeDestroyable in
  let t := track_all pre makeDestroyable in
  tracked (connectionDict t) = Historical.tracked (Historical.connections h) /\
  (Forall finite_chain (tracked (connectionDict t)) ->
   destroy_returns flags (connectionDict t) (fun res =>
     destroy_calls (calls res)
     = destroy_calls (Historical.destroy (Historical.connections h)) /\
     forall c, In (CallDestroy c) (calls res) <->
               In (CallDestroy c) (Historical.destroy (Historical.connections h)))).
Proof.
  intros Hnd h t.
  assert (Hag : agree h t).
  { apply track_all_agree; [apply makeDestroyable_agree|]. simpl.
    rewrite accepted_keys_app in Hnd. eapply NoDup_app_remove_r; eauto. }
  destruct Hag as (Hd & _).
  split.
  - rewrite Hd. apply tracked_lift.
  - intros Hfin. split; [now apply destroy_total|].
    intros fuel res Hres.
    destruct (destroy_spec _ _ _ _ Hres) as (Hcalls & _).
    assert (Heq : destroy_calls (calls res)
                  = destroy_calls (Historical.destroy (Historical.connections h))).
    { rewrite Hcalls, Hd, visit_order_lift. symmetry. apply historical_destroy_calls. }
    split; auto. intros c. now rewrite <- !in_destroy_calls, Heq.
Qed.

(** * Further properties of the code *)

(** ** Registry round trips *)

Lemma indexOf_first (c : Handle) (l1 l2 : list Handle) :
  ~ In c l1 -> indexOf c (l1 ++ c :: l2) = Z.of_nat (List.length l1).
Proof.
  induction l1 as [|x l1 IH]; simpl; intros Hout.
  - now rewrite Nat.eqb_refl.
  - destruct (Nat.eqb_spec x c) as [Hx|Hx]; [exfalso; apply Hout; auto|].
    rewrite IH by (intros Hin; apply Hout; auto).
    destruct (Z.eqb_spec (Z.of_nat (List.length l1)) (-1)); lia.
Qed.

Lemma splice1_first (c : Handle) (l1 l2 : list Handle) :
  splice1 (List.length l1) (l1 ++ c :: l2) = l1 ++ l2.
Proof. induction l1 as [|x l1 IH]; simpl; auto. now rewrite IH. Qed.

Lemma dict_set_same_value {V} (k : string) (v : V) (d : dict V) :
  dict_get k d = Some v -> dict_set k v d = d.
Proof.
  induction d as [|[k0 v0] d IH]; simpl; [discriminate|].
  destruct (String.eqb_spec k0 k); intros H.
  - inversion H; subst; reflexivity.
  - now rewrite IH.
Qed.

Lemma dict_set_set {V} (k : string) (v w : V) (d : dict V) :
  dict_set k w (dict_set k v d) = dict_set k w d.
Proof.
  induction d as [|[k0 v0] d IH]; simpl.
  - now rewrite String.eqb_refl.
  - destruct (String.eqb k0 k) eqn:E; simpl; rewrite E; auto. now rewrite IH.
Qed.

Lemma dict_delete_set_new {V} (k : string) (v : V) (d : dict V) :
  dict_get k d = None -> dict_delete k (dict_set k v d) = d.
Proof.
  induction d as [|[k0 v0] d IH]; simpl.
  - now rewrite String.eqb_refl.
  - destruct (String.eqb k0 k) eqn:E; [discriminate|]. simpl. rewrite E.
    intros H. now rewrite IH.
Qed.

(** X3 (register then unregister): when [conn] is not already held
    under [key] (and the key, if present, holds a non-empty array, as
    it always does), [removeConnection(key, conn)] right after
    [addConnection(key, conn)] gives the registry back as it was, key
    order included. *)
Theorem add_then_remove_roundtrip (d : Dict) (key : string) (conn : Handle) :
  ~ In conn (conns_of key d) ->
  dict_get key d <> Some [] ->
  removeConnection key conn (addConnection key conn d) = d.
Proof.
  unfold conns_of, addConnection, removeConnection, push.
  destruct (dict_get key d) as [l|] eqn:E; intros Hout Hne.
  - rewrite dict_get_set_same.
    rewrite (indexOf_first conn l [] Hout).
    assert (Hlen : Nat.eqb (List.length (l ++ [conn])) 1 = false).
    { apply Nat.eqb_neq. rewrite length_app. simpl.
      destruct l; [congruence|simpl; lia]. }
    rewrite Hlen. simpl.
    destruct (Z.eqb_spec (Z.of_nat (List.length l)) (-1)); [lia|]. simpl.
    rewrite Nat2Z.id, splice1_first, app_nil_r, dict_set_set.
    now apply dict_set_same_value.
  - rewrite dict_get_set_same. simpl. rewrite Nat.eqb_refl. simpl.
    now apply dict_delete_set_new.
Qed.

(** X4 (unregister removes the first occurrence, by identity): when the
    array under [key] is [l1 ++ conn :: l2] with no [conn] in [l1],
    [removeConnection(key, conn)] leaves [l1 ++ l2] there, drops the key
    exactly when nothing is left, and leaves every other key alone. *)
Theorem removeConnection_removes_first
  (d : Dict) (key : string) (conn : Handle) (l1 l2 : list Handle) :
  dict_get key d = Some (l1 ++ conn :: l2) ->
  ~ In conn l1 ->
  conns_of key (removeConnection key conn d) = l1 ++ l2 /\
  (dict_get key (removeConnection key conn d) = None <-> l1 ++ l2 = []) /\
  (forall k, k <> key ->
     dict_get k (removeConnection key conn d) = dict_get k d).
Proof.
  intros E Hout. unfold removeConnection, conns_of. rewrite E.
  rewrite (indexOf_first conn l1 l2 Hout).
  destruct (Nat.eqb_spec (List.length (l1 ++ conn :: l2)) 1) as [Hl|Hl]; simpl.
  - destruct l1 as [|x l1]; simpl in *.
    + destruct l2; [|discriminate]. simpl.
      rewrite dict_get_delete_same. repeat split; auto.
      intros k Hk. now apply dict_get_delete_other.
    + rewrite length_app in Hl. simpl in Hl. lia.
  - destruct (Z.eqb_spec (Z.of_nat (List.length l1)) (-1)); [lia|]. simpl.
    rewrite Nat2Z.id, splice1_first, dict_get_set_same.
    split; [reflexivity|]. split.
    + split; [discriminate|]. intros Hnil.
      apply app_eq_nil in Hnil as [-> ->]. simpl in Hl. congruence.
    + intros k Hk. now apply dict_get_set_other.
Qed.

(** ** Registry keys *)

Lemma digits_no_colon (s1 s2 : string) :
  NilEmpty.uint_of_string (s1 ++ String ":" s2) = None.
Proof.
  induction s1 as [|a s1 IH]; simpl.
  - now destruct (NilEmpty.uint_of_string s2).
  - now rewrite IH.
Qed.

Lemma show_port_digits (n : N) :
  show_port (Some n) = NilEmpty.string_of_uint (N.to_uint n).
Proof.
  simpl. destruct n as [|p]; [reflexivity|]. simpl.
  pose proof (DecimalPos.Unsigned.to_uint_nonnil p) as Hp.
  now destruct (Pos.to_uint p).
Qed.

(** Neither a port number nor [undefined] is written with a colon. *)
Lemma show_port_no_colon (p : option N) (s1 s2 : string) :
  show_port p <> (s1 ++ String ":" s2)%string.
Proof.
  destruct p as [n|].
  - rewrite show_port_digits. intros H.
    pose proof (NilEmpty.usu (N.to_uint n)) as Hu.
    rewrite H, digits_no_colon in Hu. discriminate.
  - destruct s1 as [|a1 [|a2 [|a3 [|a4 [|a5 [|a6 [|a7 [|a8 [|a9 [|a10 s1]]]]]]]]]];
      simpl; intros H; inversion H.
Qed.

Lemma show_port_inj (p p' : option N) : show_port p = show_port p' -> p = p'.
Proof.
  destruct p as [n|], p' as [m|]; auto.
  - rewrite !show_port_digits. intros H. f_equal.
    apply DecimalN.Unsigned.to_uint_inj.
    pose proof (NilEmpty.usu (N.to_uint n)) as Hn. rewrite H, NilEmpty.usu in Hn.
    congruence.
  - rewrite show_port_digits. intros H.
    pose proof (NilEmpty.usu (N.to_uint n)) as Hn. rewrite H in Hn. discriminate.
  - rewrite show_port_digits. intros H.
    pose proof (NilEmpty.usu (N.to_uint m)) as Hm. rewrite <- H in Hm. discriminate.
Qed.

(** A key splits at its last colon. *)
Lemma key_split (a a' s s' : string) :
  (forall s1 s2, s <> (s1 ++ String ":" s2)%string) ->
  (forall s1 s2, s' <> (s1 ++ String ":" s2)%string) ->
  (a ++ String ":" s = a' ++ String ":" s')%string -> a = a' /\ s = s'.
Proof.
  intros Hs Hs'. revert a'. induction a as [|c a IH]; intros [|c' a']; simpl; intros H.
  - inversion H; auto.
  - inversion H; subst. exfalso. now apply (Hs a' s').
  - inversion H; subst. exfalso. now apply (Hs' a s).
  - inversion H; subst. destruct (IH a' H2) as [-> ->]. auto.
Qed.

(** X5 (registry keys tell peers apart): two connections get the same
    registry key exactly when they show the same remote port and the
    same remote address, an [undefined] address reading as the text
    "undefined". *)
Theorem registryKey_same_iff
  (a a' : option string) (p p' : option N) :
  registryKey a p = registryKey a' p' <->
  show_address a = show_address a' /\ p = p'.
Proof.
  unfold registryKey. split.
  - intros H.
    destruct (key_split (show_address a) (show_address a') (show_port p) (show_port p'))
      as [Ha Hp]; auto using show_port_no_colon.
    split; auto. now apply show_port_inj.
  - intros [-> ->]. reflexivity.
Qed.

(** ** What the registry holds *)

Lemma fireClose_In (c x : Handle) (k : string) (ls : list (Handle * string)) (d : Dict) :
  In x (conns_of k (fireClose c ls d)) -> In x (conns_of k d).
Proof.
  rewrite !(count_occ_In Nat.eq_dec).
  pose proof (fireClose_le c x k ls d). lia.
Qed.

Lemma onClose_gone (c : Handle) (k : string) (t : Tracker) :
  tracker_inv t -> ~ In c (conns_of k (connectionDict (onClose c t))).
Proof.
  intros (_ & _ & Hcnt) Hin. apply (count_occ_In Nat.eq_dec) in Hin.
  simpl in Hin. rewrite fireClose_same in Hin. specialize (Hcnt k c). lia.
Qed.

(** Whatever is held under a key after some events was held there
    before them and never closed, or was accepted under that key by
    them and not closed since. *)
Lemma held_since (evs : list Event) (t : Tracker) (k : string) (c : Handle) :
  tracker_inv t ->
  In c (conns_of k (connectionDict (track_all evs t))) ->
  (In c (conns_of k (connectionDict t)) /\ ~ In (EvSockClose c) evs) \/
  (exists pre s a p post,
     evs = pre ++ EvAccept s c a p :: post /\
     registryKey a p = k /\ ~ In (EvSockClose c) post).
Proof.
  revert t. induction evs as [|ev evs IH]; intros t Ht Hin; simpl in *; auto.
  pose proof (track_inv t ev Ht) as Ht1.
  destruct (IH _ Ht1 Hin) as [[Hin1 Hno]|(pre & s & a & p & post & -> & Hk & Hno)].
  2:{ right. exists (ev :: pre), s, a, p, post. auto. }
  destruct ev as [s c0 a p|c0|e|]; simpl in Hin1.
  - rewrite conns_of_addConnection in Hin1.
    destruct (String.eqb_spec (registryKey a p) k) as [Hk|Hk].
    + subst k. apply in_app_or in Hin1 as [Hin1|[->|[]]].
      * left. split; auto. intros [?|?]; [discriminate|contradiction].
      * right. exists [], s, a, p, evs. auto.
    + left. split; auto. intros [?|?]; [discriminate|contradiction].
  - left. split; [exact (fireClose_In _ _ _ _ _ Hin1)|].
    intros [Heq|?]; [|contradiction]. inversion Heq; subst.
    now apply (onClose_gone c k t Ht).
  - left. split; auto. intros [?|?]; [discriminate|contradiction].
  - left. split; auto. intros [?|?]; [discriminate|contradiction].
Qed.

(** X1 (what the registry holds): after any events on a fresh
    [makeDestroyable], a socket is held under a key exactly when it was
    accepted with an address and port giving that key and has not
    emitted 'close' since. *)
Theorem held_iff_accepted_and_open (evs : list Event) (key : string) (conn : Handle) :
  In conn (conns_of key (connectionDict (track_all evs makeDestroyable))) <->
  exists pre s a p post,
    evs = pre ++ EvAccept s conn a p :: post /\
    registryKey a p = key /\ ~ In (EvSockClose conn) post.
Proof.
  split.
  - intros Hin.
    destruct (held_since evs _ key conn makeDestroyable_inv Hin) as [[[] _]|H]; auto.
  - intros (pre & s & a & p & post & -> & <- & Hno).
    rewrite track_all_app. simpl.
    apply track_all_keeps_member; auto.
    simpl. rewrite conns_of_addConnection, String.eqb_refl.
    apply in_or_app. simpl; auto.
Qed.

Lemma removeConnection_untracked (k : string) (c : Handle) (d : Dict) :
  ~ In c (tracked d) -> removeConnection k c d = d.
Proof.
  intros Hout.
  assert (Habs : forall l, dict_get k d = Some l -> In c l -> False).
  { intros l Hl Hin. apply Hout, tracked_In. exists k, l. split; auto.
    now apply dict_get_In. }
  destruct (removeConnection_cases k c d)
    as [[E _]|[[E _]|(l & i & E & Hn & _)]]; auto; exfalso.
  - apply (Habs [c] E). simpl; auto.
  - apply (Habs l E). eapply nth_error_In; eauto.
Qed.

Lemma fireClose_untracked (c : Handle) (ls : list (Handle * string)) (d : Dict) :
  ~ In c (tracked d) -> fireClose c ls d = d.
Proof.
  intros Hout. induction ls as [|[c0 k0] ls IH]; simpl; auto.
  destruct (Nat.eqb_spec c0 c) as [->|Hne]; auto.
  now rewrite removeConnection_untracked.
Qed.

(** X2 (late and duplicate 'close' events): after any events on a
    fresh [makeDestroyable], a 'close' of a socket leaves no entry of
    it under any key; a 'close' of a socket the registry does not hold
    changes nothing; so a second 'close' changes nothing. *)
Theorem close_untracks_and_repeats_harmlessly (evs : list Event) (conn : Handle) :
  let t := track_all evs makeDestroyable in
  ~ In conn (tracked (connectionDict (track t (EvSockClose conn)))) /\
  (~ In conn (tracked (connectionDict t)) -> track t (EvSockClose conn) = t) /\
  track (track t (EvSockClose conn)) (EvSockClose conn) = track t (EvSockClose conn).
Proof.
  intros t.
  assert (Ht : tracker_inv t) by apply track_all_inv, makeDestroyable_inv.
  assert (Hgone : ~ In conn (tracked (connectionDict (track t (EvSockClose conn)))))
    by now apply onClose_untracked.
  assert (Hnoop : forall t', ~ In conn (tracked (connectionDict t')) ->
                             track t' (EvSockClose conn) = t').
  { intros [d ls] Hout. simpl in *. unfold onClose. simpl.
    now rewrite fireClose_untracked. }
  split; [exact Hgone|]. split; [apply Hnoop|]. now apply Hnoop.
Qed.

(** ** When [checkDestroyed] says no, and when it says nothing *)

(** X6 ([checkDestroyed] answering [false], or not at all): the walk
    returns [false] exactly when the parent chain ends and [destroyed]
    is set nowhere on it; and it never returns exactly when the chain
    does not end (a cycle) and [destroyed] is set nowhere on it. *)
Theorem checkDestroyed_false_or_never (flags : Flags) (conn : Handle) :
  ((exists fuel, checkDestroyed fuel flags conn = Some false) <->
   (finite_chain conn /\
    forall c', on_chain conn c' -> destroyed (flags c') = false)) /\
  ((forall fuel, checkDestroyed fuel flags conn = None) <->
   (~ finite_chain conn /\
    forall c', on_chain conn c' -> destroyed (flags c') = false)).
Proof.
  split; [apply checkDestroyed_false|]. split.
  - intros Hnone. split.
    + intros Hfin. destruct (checkDestroyed_total conn Hfin) as [n Hn].
      destruct (Hn n flags (le_n n)) as [b Hb]. rewrite Hnone in Hb. discriminate.
    + intros c' Hch. destruct (destroyed (flags c')) eqn:Ed; auto.
      destruct (proj2 (checkDestroyed_true flags conn)) as [fuel Hf]; eauto.
      rewrite Hnone in Hf. discriminate.
  - intros [Hinf Hall] fuel.
    destruct (checkDestroyed fuel flags conn) as [[|]|] eqn:E; auto; exfalso.
    + destruct (proj1 (checkDestroyed_true flags conn)) as (c' & Hch & Hd); eauto.
      rewrite (Hall c' Hch) in Hd. discriminate.
    + apply Hinf. apply (proj1 (checkDestroyed_false flags conn)). eauto.
Qed.

(** ** The calls of [destroy()] *)








(** X8 (everything tracked ends up destroyed): when [conn.destroy()]
    sets [destroyed] on the socket it is called on, and status
    properties are latches, every socket of the registry has
    [destroyed] set once [destroy()] has returned, before any event. *)
Theorem destroy_marks_all_destroyed
  (fuel : nat) (flags : Flags) (d : Dict) (res : Destroyed) :
  (forall c f, destroyed (sock_destroy c f c) = true) ->
  latching ->
  destroy fuel flags d = Some res ->
  forall c, In c (tracked d) -> destroyed (flags_after res c) = true.
Proof.
  intros Hset Hl Hres c Hin.
  destruct (destroy_spec _ _ _ _ Hres) as (_ & _ & -> & _).
  apply visit_order_In in Hin. apply in_split in Hin as (pre & post & ->).
  unfold flags_when. rewrite fold_left_app. simpl.
  exact (proj2 (flags_when_latch post _ c Hl) (Hset _ _)).
Qed.

(** ** The promise: when it is fulfilled, when it hangs, what rejects it *)

Lemma destroy_on_course (fuel : nat) (flags : Flags) (d : Dict) (res : Destroyed) :
  destroy fuel flags d = Some res -> on_course (promise res).
Proof.
  unfold destroy. destruct (destroyKeys fuel d _) as [st|]; [|discriminate].
  intros H; inversion H; subst; clear H. simpl.
  right. unfold microtasks. simpl.
  destruct (l_waits st); simpl; (split; [reflexivity|]).
  - right. auto.
  - left. split; [reflexivity|discriminate].
Qed.

Lemma run_step_waits (r : Run) (ev : Event) (h : Handle) :
  In h (waits (run_step r ev)) -> In h (waits r) /\ ev <> EvSockClose h.
Proof.
  unfold run_step. rewrite waits_microtasks.
  destruct r as [ws ph o]. destruct ev as [s c a p|c|[e|]|]; simpl.
  - intros Hh. split; [assumption|discriminate].
  - intros Hh. apply filter_In in Hh as [Hin Hne]. split; auto.
    intros Heq. inversion Heq; subst. rewrite Nat.eqb_refl in Hne. discriminate.
  - unfold reject. destruct o; simpl; intros Hh; (split; [assumption|discriminate]).
  - intros Hh. split; [assumption|discriminate].
  - unfold resolve. destruct ph, o; simpl; intros Hh; (split; [assumption|discriminate]).
Qed.

Ltac course :=
  unfold on_course; simpl;
  first [ left; reflexivity
        | right; split; [reflexivity|];
          first [ left; split; [reflexivity|discriminate]
                | right; split; reflexivity ] ].

(** An event other than a server-close error keeps the promise on
    course. *)
Lemma run_step_on_course (r : Run) (ev : Event) :
  on_course r -> (forall e, ev <> EvServerClosed (Some e)) ->
  on_course (run_step r ev).
Proof.
  intros Hc Hev. destruct r as [ws ph o]. unfold on_course in Hc. simpl in Hc.
  destruct Hc as [->|(-> & [[-> Hw]|[-> ->]])].
  - left. apply (run_step_settled {| waits := ws; phase := ph; outcome := Fulfilled |} ev).
    simpl. discriminate.
  - destruct ws as [|w ws]; [congruence|].
    destruct ev as [s c a p|c|[e|]|]; unfold run_step; simpl; try course.
    + destruct (negb (Nat.eqb w c)); simpl; try course.
      destruct (filter _ ws); simpl; course.
    + exfalso. now apply (Hev e).
  - destruct ev as [s c a p|c|[e|]|]; unfold run_step; simpl; try course.
    exfalso. now apply (Hev e).
Qed.

(** With no server-close error among them, events that contain the
    'close' of every awaited socket leave the promise fulfilled, or
    pending with its immediate queued. *)
Lemma closes_queue_immediate (evs : list Event) (r : Run) :
  on_course r ->
  (forall e, ~ In (EvServerClosed (Some e)) evs) ->
  (forall h, In h (waits r) -> In (EvSockClose h) evs) ->
  outcome (run_events evs r) = Fulfilled \/
  (outcome (run_events evs r) = Pending /\
   phase (run_events evs r) = ImmediateQueued).
Proof.
  revert r. induction evs as [|ev evs IH]; intros r Hc Herr Hcl; simpl.
  - destruct Hc as [Hf|(Hp & [[_ Hw]|[Hq _]])]; auto.
    exfalso. destruct (waits r) as [|w ws]; [congruence|].
    apply (Hcl w). simpl; auto.
  - assert (Hev : forall e, ev <> EvServerClosed (Some e)).
    { intros e ->. apply (Herr e). simpl; auto. }
    pose proof (run_step_on_course r ev Hc Hev) as Hc1.
    apply IH; auto.
    + intros e Hin. apply (Herr e). simpl; auto.
    + intros h Hh. destruct (run_step_waits r ev h Hh) as [Hin Hne].
      destruct (Hcl h Hin) as [Heq|Hin']; [congruence|auto].
Qed.

Lemma immediate_fulfils (evs : list Event) (r : Run) :
  on_course r ->
  (forall e, ~ In (EvServerClosed (Some e)) evs) ->
  (forall h, In h (waits r) -> In (EvSockClose h) evs) ->
  outcome (run_events (evs ++ [EvImmediate]) r) = Fulfilled.
Proof.
  intros Hc Herr Hcl. rewrite run_events_app. simpl.
  destruct (closes_queue_immediate evs r Hc Herr Hcl) as [Hf|[Hp Hq]].
  - rewrite run_step_settled; auto. congruence.
  - unfold run_step. rewrite outcome_microtasks, Hq. unfold resolve. simpl.
    now rewrite Hp.
Qed.

(** X9 (completion): once every socket the promise of [destroy()]
    waits for has emitted 'close', the server-close callback having
    reported no error, the next check phase leaves the promise
    fulfilled.  With nothing to wait for (an empty registry, or sockets
    that all reported closed) the first check phase does. *)
Theorem destroy_fulfilled_once_closed
  (fuel : nat) (flags : Flags) (d : Dict) (res : Destroyed) (evs : list Event) :
  destroy fuel flags d = Some res ->
  (forall e, ~ In (EvServerClosed (Some e)) evs) ->
  (forall c, In c (waits (promise res)) -> In (EvSockClose c) evs) ->
  outcome (run_events (evs ++ [EvImmediate]) (promise res)) = Fulfilled.
Proof.
  intros Hres Herr Hcl. apply immediate_fulfils; auto.
  eapply destroy_on_course; eauto.
Qed.

Lemma rejected_by_error (evs : list Event) (r : Run) (e : Err) :
  outcome r = Pending ->
  outcome (run_events evs r) = Rejected e ->
  exists evs1 evs2,
    evs = evs1 ++ EvServerClosed (Some e) :: evs2 /\
    outcome (run_events evs1 r) = Pending.
Proof.
  revert r. induction evs as [|ev evs IH]; intros r Hp Hr; simpl in *; [congruence|].
  destruct (outcome (run_step r ev)) eqn:E1.
  - destruct (IH _ E1 Hr) as (evs1 & evs2 & -> & Hp1).
    exists (ev :: evs1), evs2. auto.
  - rewrite run_events_settled in Hr by congruence. congruence.
  - rewrite run_events_settled in Hr by congruence.
    rewrite E1 in Hr. inversion Hr; subst.
    exists [], evs. split; auto.
    unfold run_step in E1. rewrite outcome_microtasks in E1.
    destruct r as [ws ph o]; simpl in *; subst.
    destruct ev as [s c a p|c|[e0|]|]; simpl in E1; try discriminate.
    + unfold reject in E1. simpl in E1. congruence.
    + destruct ph; simpl in E1; discriminate.
Qed.

(** X11 (only the server's error is surfaced): the promise of
    [destroy()] is rejected with [err] only if the server-close callback
    reported exactly [err] while the promise was still pending; nothing
    a connection does rejects it. *)
Theorem rejected_only_by_server_close_error
  (fuel : nat) (flags : Flags) (d : Dict) (res : Destroyed)
  (evs : list Event) (err : Err) :
  destroy fuel flags d = Some res ->
  outcome (run_events evs (promise res)) = Rejected err ->
  exists evs1 evs2,
    evs = evs1 ++ EvServerClosed (Some err) :: evs2 /\
    outcome (run_events evs1 (promise res)) = Pending.
Proof.
  intros Hres Hr. destruct (destroy_spec _ _ _ _ Hres) as (_ & _ & _ & Hp & _).
  now apply rejected_by_error.
Qed.

(** X10 (no timeout): while a socket the promise waits for has not
    emitted 'close', and the server-close callback has reported no
    error, the promise of [destroy()] stays pending, whatever else
    happens and however often the check phase runs. *)
Theorem destroy_pending_until_close
  (fuel : nat) (flags : Flags) (d : Dict) (res : Destroyed)
  (evs : list Event) (conn : Handle) :
  destroy fuel flags d = Some res ->
  In conn (waits (promise res)) ->
  ~ In (EvSockClose conn) evs ->
  (forall e, ~ In (EvServerClosed (Some e)) evs) ->
  outcome (run_events evs (promise res)) = Pending.
Proof.
  intros Hres Hw Hno Herr.
  destruct (destroy_spec _ _ _ _ Hres) as (_ & _ & _ & Hp & Hph & Hq & _).
  destruct (outcome (run_events evs (promise res))) as [| |e] eqn:E; auto; exfalso.
  - assert (Hn : not_yet (promise res)).
    { unfold not_yet. repeat split; auto. congruence. }
    destruct (fulfilled_after_closes evs _ Hn E) as (evs1 & evs2 & -> & Hcl).
    apply Hno, in_or_app. left. auto.
  - destruct (rejected_by_error evs _ e Hp E) as (evs1 & evs2 & -> & _).
    apply (Herr e), in_or_app. right. simpl; auto.
Qed.

(** X12 (settled for good): once the promise of [destroy()] is
    fulfilled or rejected, no later event changes its outcome: an error
    reported after fulfilment is dropped, and closes after a rejection
    do not fulfil it. *)
Theorem settled_outcome_is_final
  (fuel : nat) (flags : Flags) (d : Dict) (res : Destroyed)
  (evs1 evs2 : list Event) :
  destroy fuel flags d = Some res ->
  outcome (run_events evs1 (promise res)) <> Pending ->
  outcome (run_events (evs1 ++ evs2) (promise res))
  = outcome (run_events evs1 (promise res)).
Proof.
  intros _ Hs. rewrite run_events_app. now apply run_events_settled.
Qed.

Lemma run_step_unheard (r : Run) (ev : Event) :
  microtasks r = r -> unheard ev = true -> run_step r ev = r.
Proof.
  intros Hm Hu. destruct ev as [s c a p|c|[e|]|]; simpl in Hu; try discriminate;
    unfold run_step; exact Hm.
Qed.

Lemma microtasks_idem (r : Run) : microtasks (microtasks r) = microtasks r.
Proof. destruct r as [[|w ws] [| |] o]; reflexivity. Qed.

Lemma run_events_unheard (evs : list Event) (r : Run) :
  microtasks r = r ->
  run_events evs r = run_events (filter (fun ev => negb (unheard ev)) evs) r.
Proof.
  revert r. induction evs as [|ev evs IH]; intros r Hm; simpl; auto.
  destruct (unheard ev) eqn:Eu; simpl.
  - rewrite run_step_unheard; auto.
  - apply IH. unfold run_step. apply microtasks_idem.
Qed.

(** X13 (what the promise does not listen to): connections accepted
    after [destroy()] was called, and a server-close callback reporting
    success, leave the promise exactly as it is; it behaves as if they
    had not happened. *)
Theorem promise_ignores_accepts_and_server_success
  (fuel : nat) (flags : Flags) (d : Dict) (res : Destroyed) (evs : list Event) :
  destroy fuel flags d = Some res ->
  run_events evs (promise res)
  = run_events (filter (fun ev => negb (unheard ev)) evs) (promise res).
Proof.
  intros Hres. apply run_events_unheard.
  unfold destroy in Hres. destruct (destroyKeys fuel d _) as [st|]; [|discriminate].
  inversion Hres; subst. simpl. apply microtasks_idem.
Qed.

(** ** Shutting down, end to end *)

Lemma no_accept_all_closed (evs : list Event) :
  (forall s c a p, ~ In (EvAccept s c a p) evs) -> all_closed_later evs.
Proof.
  induction evs as [|ev evs IH]; intros Hno; simpl; auto.
  assert (Hrest : all_closed_later evs).
  { apply IH. intros s c a p Hin. apply (Hno s c a p). simpl; auto. }
  destruct ev as [s c a p|c|e|]; auto.
  exfalso. apply (Hno s c a p). simpl; auto.
Qed.

(** X16 (a whole shutdown): take the registry as any events have left
    it and call [destroy()].  If then every tracked socket emits
    'close', no new connection is accepted and the server-close
    callback reports no error, the registry ends up empty and the next
    check phase fulfils the promise. *)
Theorem shutdown_completes
  (fuel : nat) (flags : Flags) (before_destroy evs : list Event) (res : Destroyed) :
  let t := track_all before_destroy makeDestroyable in
  destroy fuel flags (connectionDict t) = Some res ->
  (forall c, In c (tracked (connectionDict t)) -> In (EvSockClose c) evs) ->
  (forall s c a p, ~ In (EvAccept s c a p) evs) ->
  (forall e, ~ In (EvServerClosed (Some e)) evs) ->
  connectionDict (track_all (evs ++ [EvImmediate]) t) = [] /\
  outcome (run_events (evs ++ [EvImmediate]) (promise res)) = Fulfilled.
Proof.
  intros t Hres Hcl Hacc Herr.
  assert (Ht : tracker_inv t) by apply track_all_inv, makeDestroyable_inv.
  split.
  - rewrite track_all_app. simpl.
    pose proof (track_all_inv evs t Ht) as (_ & Hne & _).
    apply no_empty_untracked; auto.
    destruct (tracked (connectionDict (track_all evs t))) as [|c l] eqn:E; auto.
    exfalso.
    assert (Hin : In c (tracked (connectionDict (track_all evs t))))
      by (rewrite E; simpl; auto).
    destruct (leftover_tracked evs t c Ht (no_accept_all_closed evs Hacc) Hin)
      as [Hc Hno].
    apply Hno. auto.
  - apply immediate_fulfils; auto.
    + eapply destroy_on_course; eauto.
    + intros h Hh. apply Hcl.
      destruct (destroy_spec _ _ _ _ Hres) as (_ & _ & _ & _ & _ & _ & Hw & _).
      destruct (Hw h Hh) as (pre & post & Hv & _).
      apply visit_order_In. rewrite Hv. apply in_or_app. simpl; auto.
Qed.

(** ** The historical variant on its own *)

Lemma historical_settled (evs : list Event) (o : Outcome) :
  o <> Pending -> Historical.settle_all evs o = o.
Proof.
  induction evs as [|ev evs IH]; intros Ho; simpl; auto.
  destruct o; [congruence| |]; simpl; apply IH; discriminate.
Qed.

(** X14 (the historical promise): in the historical and intermediate
    variants the promise of [destroy()] is settled by the first
    server-close callback and by nothing else: fulfilled if it reports
    no error, rejected with its error otherwise, pending until then;
    no 'close' of a connection plays any part. *)
Theorem historical_promise_follows_server_close (evs : list Event) :
  Historical.settle_all evs Pending =
  match first_server_close evs with
  | None => Pending
  | Some None => Fulfilled
  | Some (Some err) => Rejected err
  end.
Proof.
  induction evs as [|ev evs IH]; simpl; auto.
  destruct ev as [s c a p|c|[e|]|]; simpl; auto;
    apply historical_settled; discriminate.
Qed.

Lemma historical_fireClose_none (c : Handle) (k : string)
  (ls : list (Handle * string)) (d : dict Handle) :
  dict_get k d = None -> dict_get k (Historical.fireClose c ls d) = None.
Proof.
  revert d. induction ls as [|[c0 k0] ls IH]; intros d Hd; simpl; auto.
  apply IH. simpl. destruct (Nat.eqb c0 c); auto.
  destruct (String.eqb_spec k k0) as [->|Hk].
  - apply dict_get_delete_same.
  - now rewrite dict_get_delete_other.
Qed.

Lemma historical_fireClose_deletes (c : Handle) (k : string)
  (ls : list (Handle * string)) (d : dict Handle) :
  In (c, k) ls -> dict_get k (Historical.fireClose c ls d) = None.
Proof.
  revert d. induction ls as [|[c0 k0] ls IH]; intros d; simpl; [intros []|].
  intros [Heq|Hin]; [|now apply IH].
  inversion Heq; subst. rewrite Nat.eqb_refl.
  apply historical_fireClose_none, dict_get_delete_same.
Qed.

(** X17 (why one socket per key was not enough): in the historical
    variant, when a second connection is accepted under the key of a
    first one, the key holds the second only, so [destroy()] does not
    destroy the first; and the 'close' of the first then deletes the
    key, leaving the second, still open, untracked under it. *)
Theorem historical_duplicate_key_loses_sockets
  (t : Historical.Tracker) (s1 s2 : bool) (c1 c2 : Handle)
  (a : option string) (p : option N) :
  ~ In c1 (Historical.tracked (Historical.connections t)) ->
  c1 <> c2 ->
  let key := registryKey a p in
  let t2 := Historical.track (Historical.track t (EvAccept s1 c1 a p))
                             (EvAccept s2 c2 a p) in
  dict_get key (Historical.connections t2) = Some c2 /\
  ~ In (CallDestroy c1) (Historical.destroy (Historical.connections t2)) /\
  dict_get key (Historical.connections (Historical.track t2 (EvSockClose c1))) = None.
Proof.
  intros Hout Hne key t2. subst t2 key. simpl. split; [|split].
  - apply dict_get_set_same.
  - rewrite dict_set_set. intros [Hin|Hin]; [discriminate|].
    apply in_map_iff in Hin as ([k c] & Heq & Hin). simpl in Heq.
    inversion Heq; subst.
    apply dict_set_In in Hin as [Hin|Hin]; [inversion Hin; congruence|].
    apply Hout. unfold Historical.tracked.
    change c1 with (snd (k, c1)). now apply in_map.
  - apply historical_fireClose_deletes.
    apply in_or_app. left. apply in_or_app. right. simpl; auto.
Qed.

(** ** A walk that never returns *)

Lemma destroyEach_flags (fuel : nat) (cs : list Handle) (st st' : Loop) :
  destroyEach fuel cs st = Some st' -> l_flags st' = flags_when cs (l_flags st).
Proof. intros H. now destruct (destroyEach_spec _ _ _ _ H) as (Hf & _). Qed.

(** X18 (cycles are not guarded against): if, when its turn comes in
    [destroy()], a tracked socket has [closed] unset and its
    [checkDestroyed] walk never returns (a parent cycle with [destroyed]
    set nowhere on it), then [destroy()] never returns either. *)
Theorem destroy_never_returns_on_cycle
  (flags : Flags) (d : Dict) (pre post : list Handle) (conn : Handle) :
  visit_order d = pre ++ conn :: post ->
  closed (flags_when pre flags conn) = false ->
  (forall fuel, checkDestroyed fuel (flags_when pre flags) conn = None) ->
  forall fuel, destroy fuel flags d = None.
Proof.
  intros Hv Hc Hnone fuel. unfold destroy.
  rewrite destroyKeys_each, Hv, destroyEach_app.
  destruct (destroyEach fuel pre _) as [st|] eqn:E; [|reflexivity].
  apply destroyEach_flags in E. simpl in *.
  unfold destroyConnection, reportsClosed. rewrite E, Hc, Hnone. reflexivity.
Qed.

End Orchestrator.

(** * The theorems at concrete inputs *)

(** ** Scenarios from the repository's tests *)

Example two_streams_registry :
  connectionDict (track_all two_streams makeDestroyable) = [("1.2.3.4:1234", [0; 1])].
Proof. reflexivity. Qed.

Example two_streams_destroyed :
  option_map (fun res => (calls res, destroyed (flags_after res 0), destroyed (flags_after res 1)))
    (destroy no_parent node_destroy 1 all_open
       (connectionDict (track_all two_streams makeDestroyable)))
  = Some ([CallServerClose; CallOnClose 1; CallDestroy 1; CallOnClose 0; CallDestroy 0],
          true, true).
Proof. reflexivity. Qed.

(** The historical variant keeps the later stream only. *)
Example two_streams_historical :
  Historical.destroy
    (Historical.connections (Historical.track_all two_streams Historical.makeDestroyable))
  = [CallServerClose; CallDestroy 1].
Proof. reflexivity. Qed.

(** A parent cycle makes the walk, and so [destroy()], run forever. *)
Example cycle_never_returns :
  checkDestroyed parent_cycle 1000 all_open 0 = None.
Proof. reflexivity. Qed.

(** ** C1 *)

(** C1 as stated fails: one tracked connection, which closes; the check
    phase runs and the promise is fulfilled although the server-close
    callback has not fired. *)
Lemma destroy_fulfilled_without_server_close :
  exists res,
    destroy no_parent node_destroy 1 all_open [("127.0.0.1:50000", [0])] = Some res /\
    outcome (run_events [EvSockClose 0; EvImmediate] (promise res)) = Fulfilled /\
    existsb server_close_reported [EvSockClose 0; EvImmediate] = false.
Proof. eexists. repeat split. Qed.

Lemma destroy_resolves_after_all_closed_witness :
  exists evs1 evs2,
    [EvSockClose 1; EvServerClosed None; EvSockClose 0; EvImmediate]
    = evs1 ++ EvImmediate :: evs2 /\
    forall c, In c (tracked [("1.2.3.4:1234", [0; 1])]) ->
      In (EvSockClose c) evs1 \/
      (forall pre post, visit_order [("1.2.3.4:1234", [0; 1])] = pre ++ c :: post ->
         reportsClosed tls_over_raw 2 (flags_when node_destroy pre all_open) c = Some true).
Proof.
  eapply (destroy_resolves_after_all_closed tls_over_raw node_destroy 2 all_open
            [("1.2.3.4:1234", [0; 1])]).
  - reflexivity.
  - reflexivity.
Defined.

(** ** C2 *)

Lemma destroy_reverse_registration_order_witness :
  destroy_returns tls_over_raw node_destroy all_open
    (apply_ops ([Register "9.9.9.9:9" 7]
                ++ Register "1.2.3.4:1234" 0
                   :: [Register "1.2.3.4:1234" 5; Unregister "1.2.3.4:1234" 5]
                ++ Register "1.2.3.4:1234" 1 :: [Unregister "9.9.9.9:9" 7]) [])
    (fun res => exists t1 t2 t3, destroy_calls (calls res) = t1 ++ 1 :: t2 ++ 0 :: t3).
Proof.
  apply (destroy_reverse_registration_order tls_over_raw node_destroy all_open
           [] "1.2.3.4:1234" 0 1).
  - simpl. intuition discriminate.
  - simpl. intuition discriminate.
  - vm_compute. constructor; [now constructor|].
    constructor; [|constructor].
    apply chain_step with (p := 0); [reflexivity|now constructor].
Defined.

(** ** C3 *)

Lemma registry_empty_after_closes_witness :
  connectionDict
    (track_all [EvAccept false 0 (Some "1.2.3.4") (Some 1234%N);
                EvAccept true 1 (Some "1.2.3.4") (Some 1234%N);
                EvSockClose 1; EvImmediate; EvSockClose 0; EvSockClose 0]
       makeDestroyable) = [].
Proof.
  apply registry_empty_after_closes. simpl. repeat split; auto 10.
Defined.

(** ** C4 *)

(** C4 as stated fails: the connection has closed and the promise is
    fulfilled; the error the server-close callback reports afterwards
    does not reach it. *)
Lemma late_server_close_error_is_dropped :
  exists res,
    destroy no_parent node_destroy 1 all_open [("127.0.0.1:50000", [0])] = Some res /\
    In (EvServerClosed (Some "ERR_SERVER_NOT_RUNNING"))
       [EvSockClose 0; EvImmediate; EvServerClosed (Some "ERR_SERVER_NOT_RUNNING")] /\
    outcome (run_events [EvSockClose 0; EvImmediate;
                         EvServerClosed (Some "ERR_SERVER_NOT_RUNNING")] (promise res))
    = Fulfilled /\
    outcome (run_events [EvSockClose 0; EvImmediate;
                         EvServerClosed (Some "ERR_SERVER_NOT_RUNNING")] (promise res))
    <> Rejected "ERR_SERVER_NOT_RUNNING".
Proof.
  eexists. split; [reflexivity|]. split; [simpl; auto|].
  split; [reflexivity|discriminate].
Qed.

Lemma server_close_error_rejects_pending_witness :
  exists res,
    destroy no_parent node_destroy 1 all_open [("127.0.0.1:50000", [0])] = Some res /\
    outcome (run_events ([EvSockClose 0] ++ EvServerClosed (Some "ERR_SERVER_NOT_RUNNING")
                           :: [EvImmediate]) (promise res))
    = Rejected "ERR_SERVER_NOT_RUNNING".
Proof.
  eexists. split; [reflexivity|].
  refine (proj1 (server_close_error_rejects_pending no_parent node_destroy 1 all_open
                   [("127.0.0.1:50000", [0])] _ [EvSockClose 0] [EvImmediate]
                   "ERR_SERVER_NOT_RUNNING" eq_refl) _).
  reflexivity.
Defined.

(** ** C5 *)

Lemma removeConnection_absent_noop_witness :
  removeConnection "1.2.3.4:1234" 7 [("1.2.3.4:1234", [0; 1])]
  = [("1.2.3.4:1234", [0; 1])] /\
  removeConnection "5.6.7.8:80" 0 [("1.2.3.4:1234", [0; 1])]
  = [("1.2.3.4:1234", [0; 1])].
Proof.
  split; apply removeConnection_absent_noop; intros (l & Hl & Hin);
    vm_compute in Hl; inversion Hl; subst; simpl in Hin; intuition discriminate.
Defined.

(** ** C6 *)

Lemma node_destroy_latching : latching node_destroy.
Proof.
  intros c flags h. unfold node_destroy. destruct (Nat.eqb h c); simpl; auto.
Qed.

Lemma closed_state_detection_witness :
  destroy_returns tls_over_raw node_destroy raw_destroyed
    [("1.2.3.4:1234", [0; 1]); ("1.2.3.4:1235", [2])]
    (fun res =>
       (In (CallDestroy 1) (calls res)
        <-> In 1 (tracked [("1.2.3.4:1234", [0; 1]); ("1.2.3.4:1235", [2])])) /\
       ~ In (CallOnClose 1) (calls res) /\
       ~ In 1 (waits (promise res))).
Proof.
  apply (proj2 (proj2 (proj2 (closed_state_detection tls_over_raw node_destroy
                                  raw_destroyed 1)))).
  - exact node_destroy_latching.
  - right. exists 0. split; [|reflexivity].
    apply chain_parent with (p := 0); [reflexivity|constructor].
  - constructor; [now constructor|].
    constructor; [|constructor; [now constructor|constructor]].
    apply chain_step with (p := 0); [reflexivity|now constructor].
Defined.

(** ** C7 *)

Lemma checkDestroyed_terminates_witness :
  exists fuel b,
    checkDestroyed tls_over_raw fuel all_open 1 = Some b /\
    forall fuel', fuel <= fuel' -> checkDestroyed tls_over_raw fuel' all_open 1 = Some b.
Proof.
  apply checkDestroyed_terminates.
  apply chain_step with (p := 0); [reflexivity|now constructor].
Defined.

(** ** C8 *)

Lemma duplicate_keys_both_tracked_and_destroyed_witness :
  let t' := track_all (EvAccept false 0 (Some "1.2.3.4") (Some 1234%N)
                       :: [EvAccept false 2 (Some "5.6.7.8") (Some 80%N)]
                       ++ EvAccept true 1 (Some "1.2.3.4") (Some 1234%N)
                          :: [EvSockClose 2]) makeDestroyable in
  (exists l1 l2 l3,
     conns_of "1.2.3.4:1234" (connectionDict t') = l1 ++ 0 :: l2 ++ 1 :: l3) /\
  (0 <> 1 ->
   In 1 (conns_of "1.2.3.4:1234" (connectionDict (track t' (EvSockClose 0)))) /\
   In 0 (conns_of "1.2.3.4:1234" (connectionDict (track t' (EvSockClose 1))))) /\
  (Forall (finite_chain tls_over_raw) (tracked (connectionDict t')) ->
   destroy_returns tls_over_raw node_destroy all_open (connectionDict t') (fun res =>
     In (CallDestroy 0) (calls res) /\ In (CallDestroy 1) (calls res))).
Proof.
  apply (duplicate_keys_both_tracked_and_destroyed tls_over_raw node_destroy all_open
           makeDestroyable false true 0 1 (Some "1.2.3.4") (Some 1234%N)).
  - simpl. intros [H|[H|[]]]; discriminate.
  - simpl. intros [H|[]]; discriminate.
Defined.

(** ** C9 *)

Lemma registry_inv_preserved_witness :
  registry_inv
    (apply_ops [Register "1.2.3.4:1234" 0; Register "1.2.3.4:1234" 1;
                Unregister "1.2.3.4:1234" 0; Register "5.6.7.8:80" 2;
                Unregister "1.2.3.4:1234" 1; Unregister "1.2.3.4:1234" 1] []).
Proof.
  apply registry_inv_preserved.
  - split; [constructor|split]; [intros k l []|constructor].
  - simpl. repeat constructor; simpl; intuition discriminate.
  - intros c _ [].
Defined.

(** ** C10 *)

Lemma variants_agree_on_distinct_keys_witness :
  let pre := [EvAccept false 0 (Some "1.2.3.4") (Some 1234%N);
              EvAccept true 1 (Some "1.2.3.4") (Some 1235%N);
              EvSockClose 0] in
  let h := Historical.track_all pre Historical.makeDestroyable in
  let t := track_all pre makeDestroyable in
  tracked (connectionDict t) = Historical.tracked (Historical.connections h) /\
  (Forall (finite_chain tls_over_raw) (tracked (connectionDict t)) ->
   destroy_returns tls_over_raw node_destroy all_open (connectionDict t) (fun res =>
     destroy_calls (calls res)
     = destroy_calls (Historical.destroy (Historical.connections h)) /\
     forall c, In (CallDestroy c) (calls res) <->
               In (CallDestroy c) (Historical.destroy (Historical.connections h)))).
Proof.
  apply (variants_agree_on_distinct_keys tls_over_raw node_destroy all_open
           _ [EvAccept false 2 None None]).
  vm_compute. repeat constructor; simpl; intuition discriminate.
Defined.

(** * The further properties at concrete inputs *)

Lemma add_then_remove_roundtrip_witness :
  removeConnection "1.2.3.4:1234" 1
    (addConnection "1.2.3.4:1234" 1 [("1.2.3.4:1234", [0]); ("5.6.7.8:80", [2])])
  = [("1.2.3.4:1234", [0]); ("5.6.7.8:80", [2])] /\
  removeConnection "9.9.9.9:9" 1
    (addConnection "9.9.9.9:9" 1 [("1.2.3.4:1234", [0])])
  = [("1.2.3.4:1234", [0])].
Proof.
  split; apply add_then_remove_roundtrip; vm_compute;
    try discriminate; intros H; repeat (destruct H as [H|H]; try discriminate); auto.
Defined.

Lemma removeConnection_removes_first_witness :
  conns_of "1.2.3.4:1234"
    (removeConnection "1.2.3.4:1234" 0 [("1.2.3.4:1234", [1; 0; 0])]) = [1] ++ [0] /\
  (dict_get "1.2.3.4:1234"
     (removeConnection "1.2.3.4:1234" 0 [("1.2.3.4:1234", [1; 0; 0])]) = None
   <-> [1] ++ [0] = []) /\
  (forall k, k <> "1.2.3.4:1234" ->
     dict_get k (removeConnection "1.2.3.4:1234" 0 [("1.2.3.4:1234", [1; 0; 0])])
     = dict_get k [("1.2.3.4:1234", [1; 0; 0])]).
Proof.
  apply (removeConnection_removes_first [("1.2.3.4:1234", [1; 0; 0])]
           "1.2.3.4:1234" 0 [1] [0]).
  - reflexivity.
  - simpl. intros [H|[]]. discriminate.
Defined.


Lemma node_destroy_sets_destroyed (c : Handle) (f : Flags) :
  destroyed (node_destroy c f c) = true.
Proof. unfold node_destroy. now rewrite Nat.eqb_refl. Qed.

Lemma destroy_marks_all_destroyed_witness :
  exists res,
    destroy tls_over_raw node_destroy 2 all_open
      [("1.2.3.4:1234", [0; 1]); ("5.6.7.8:80", [2])] = Some res /\
    forall c, In c (tracked [("1.2.3.4:1234", [0; 1]); ("5.6.7.8:80", [2])]) ->
              destroyed (flags_after res c) = true.
Proof.
  eexists. split; [reflexivity|].
  apply (destroy_marks_all_destroyed tls_over_raw node_destroy 2 all_open
           [("1.2.3.4:1234", [0; 1]); ("5.6.7.8:80", [2])]).
  - exact node_destroy_sets_destroyed.
  - exact node_destroy_latching.
  - reflexivity.
Defined.

Lemma destroy_fulfilled_once_closed_witness :
  exists res,
    destroy tls_over_raw node_destroy 2 all_open [("1.2.3.4:1234", [0; 1])] = Some res /\
    outcome (run_events
               ([EvSockClose 1; EvAccept false 5 (Some "5.6.7.8") (Some 80%N);
                 EvServerClosed None; EvSockClose 0] ++ [EvImmediate])
               (promise res)) = Fulfilled.
Proof.
  eexists. split; [reflexivity|].
  apply (destroy_fulfilled_once_closed tls_over_raw node_destroy 2 all_open
           [("1.2.3.4:1234", [0; 1])]).
  - reflexivity.
  - intros e H. simpl in H. repeat (destruct H as [H|H]; try discriminate). exact H.
  - intros c H. simpl in H. destruct H as [<-|[<-|[]]]; simpl; auto 6.
Defined.

Lemma destroy_pending_until_close_witness :
  exists res,
    destroy tls_over_raw node_destroy 2 all_open [("1.2.3.4:1234", [0; 1])] = Some res /\
    outcome (run_events [EvSockClose 1; EvImmediate; EvServerClosed None; EvImmediate]
               (promise res)) = Pending.
Proof.
  eexists. split; [reflexivity|].
  apply (destroy_pending_until_close tls_over_raw node_destroy 2 all_open
           [("1.2.3.4:1234", [0; 1])] _ _ 0).
  - reflexivity.
  - simpl. auto.
  - intros H. simpl in H. repeat (destruct H as [H|H]; try discriminate). exact H.
  - intros e H. simpl in H. repeat (destruct H as [H|H]; try discriminate). exact H.
Defined.

Lemma rejected_only_by_server_close_error_witness :
  exists res,
    destroy tls_over_raw node_destroy 2 all_open [("1.2.3.4:1234", [0; 1])] = Some res /\
    exists evs1 evs2,
      [EvSockClose 1; EvServerClosed (Some "ERR_SERVER_NOT_RUNNING");
       EvSockClose 0; EvImmediate]
      = evs1 ++ EvServerClosed (Some "ERR_SERVER_NOT_RUNNING") :: evs2 /\
      outcome (run_events evs1 (promise res)) = Pending.
Proof.
  eexists. split; [reflexivity|].
  apply (rejected_only_by_server_close_error tls_over_raw node_destroy 2 all_open
           [("1.2.3.4:1234", [0; 1])]).
  - reflexivity.
  - reflexivity.
Defined.

Lemma settled_outcome_is_final_witness :
  exists res,
    destroy no_parent node_destroy 1 all_open [("127.0.0.1:50000", [0])] = Some res /\
    outcome (run_events ([EvSockClose 0; EvImmediate]
                         ++ [EvServerClosed (Some "ERR_SERVER_NOT_RUNNING")])
               (promise res))
    = outcome (run_events [EvSockClose 0; EvImmediate] (promise res)).
Proof.
  eexists. split; [reflexivity|].
  apply (settled_outcome_is_final no_parent node_destroy 1 all_open
           [("127.0.0.1:50000", [0])]).
  - reflexivity.
  - simpl. discriminate.
Defined.

Lemma promise_ignores_accepts_and_server_success_witness :
  exists res,
    destroy no_parent node_destroy 1 all_open [("127.0.0.1:50000", [0])] = Some res /\
    run_events [EvAccept false 3 (Some "5.6.7.8") (Some 80%N); EvSockClose 0;
                EvServerClosed None; EvImmediate] (promise res)
    = run_events
        (filter (fun ev => negb (unheard ev))
           [EvAccept false 3 (Some "5.6.7.8") (Some 80%N); EvSockClose 0;
            EvServerClosed None; EvImmediate]) (promise res).
Proof.
  eexists. split; [reflexivity|].
  apply (promise_ignores_accepts_and_server_success no_parent node_destroy 1 all_open
           [("127.0.0.1:50000", [0])]).
  reflexivity.
Defined.


Lemma shutdown_completes_witness :
  exists res,
    destroy no_parent node_destroy 1 all_open
      (connectionDict (track_all two_streams makeDestroyable)) = Some res /\
    connectionDict
      (track_all ([EvSockClose 1; EvServerClosed None; EvSockClose 0] ++ [EvImmediate])
         (track_all two_streams makeDestroyable)) = [] /\
    outcome (run_events
               ([EvSockClose 1; EvServerClosed None; EvSockClose 0] ++ [EvImmediate])
               (promise res)) = Fulfilled.
Proof.
  eexists. split; [reflexivity|].
  apply (shutdown_completes no_parent node_destroy 1 all_open two_streams).
  - reflexivity.
  - intros c H. vm_compute in H. destruct H as [<-|[<-|[]]]; simpl; auto.
  - intros s c a p H. simpl in H. repeat (destruct H as [H|H]; try discriminate). exact H.
  - intros e H. simpl in H. repeat (destruct H as [H|H]; try discriminate). exact H.
Defined.

Lemma historical_duplicate_key_loses_sockets_witness :
  let t2 := Historical.track
              (Historical.track Historical.makeDestroyable
                 (EvAccept false 0 (Some "1.2.3.4") (Some 1234%N)))
              (EvAccept false 1 (Some "1.2.3.4") (Some 1234%N)) in
  dict_get (registryKey (Some "1.2.3.4") (Some 1234%N)) (Historical.connections t2)
  = Some 1 /\
  ~ In (CallDestroy 0) (Historical.destroy (Historical.connections t2)) /\
  dict_get (registryKey (Some "1.2.3.4") (Some 1234%N))
    (Historical.connections (Historical.track t2 (EvSockClose 0))) = None.
Proof.
  apply (historical_duplicate_key_loses_sockets Historical.makeDestroyable
           false false 0 1 (Some "1.2.3.4") (Some 1234%N)).
  - simpl. intros [].
  - discriminate.
Defined.

Lemma cycle_walk_never_returns (fuel : nat) :
  checkDestroyed parent_cycle fuel all_open 1 = None /\
  checkDestroyed parent_cycle fuel all_open 0 = None.
Proof. induction fuel as [|fuel [IH1 IH0]]; simpl; auto. Qed.

Lemma destroy_never_returns_on_cycle_witness :
  destroy parent_cycle node_destroy 1000 all_open
    [("1.2.3.4:1234", [0; 1]); ("5.6.7.8:80", [2])] = None.
Proof.
  apply (destroy_never_returns_on_cycle parent_cycle node_destroy all_open
           [("1.2.3.4:1234", [0; 1]); ("5.6.7.8:80", [2])] [] [0; 2] 1).
  - reflexivity.
  - reflexivity.
  - intros fuel. apply cycle_walk_never_returns.
Defined.
